(** * local-db: the [useLocalDb] hook and the store it binds to

    A shallow embedding of [src/app/use-local-db.ts], in both revisions found
    in the repository (the one that compares with [defaultIsEqual] over
    [fast-deep-equal], and the one that delegates to [isDeepEqual]), together
    with the store registry the hook imports from
    [./components/store-registry]. *)

From Stdlib Require Import Floats.PrimFloat Floats.SpecFloat Floats.FloatAxioms.
From stdpp Require Import base option gmap sets list strings.

Open Scope string_scope.

(** ** JavaScript values

    Objects and functions are heap references: [===] on them is identity of
    the reference, never of the contents.  Numbers are IEEE 754 doubles. *)
Module JS.

Inductive JSValue : Type :=
| VUndefined
| VNull
| VBoolean (b : bool)
| VNumber (n : float)
| VString (s : string)
| VBigInt (z : Z)
| VSymbol (id : positive)
| VFunction (r : positive)
| VObject (r : positive).

(** The [typeof] operator. *)
Definition typeof (v : JSValue) : string :=
  match v with
  | VUndefined => "undefined"
  | VNull => "object"
  | VBoolean _ => "boolean"
  | VNumber _ => "number"
  | VString _ => "string"
  | VBigInt _ => "bigint"
  | VSymbol _ => "symbol"
  | VFunction _ => "function"
  | VObject _ => "object"
  end.

(** ToBoolean: the falsy values are [undefined], [null], [false], [+0],
    [-0], [NaN], the empty string and [0n]. *)
Definition to_boolean (v : JSValue) : bool :=
  match v with
  | VUndefined | VNull => false
  | VBoolean b => b
  | VNumber n => negb (PrimFloat.is_zero n || PrimFloat.is_nan n)
  | VString s => negb (String.eqb s "")
  | VBigInt z => negb (Z.eqb z 0)
  | VSymbol _ | VFunction _ | VObject _ => true
  end.

(** The prefix operator [!v]. *)
Definition logical_not (v : JSValue) : bool := negb (to_boolean v).

(** IsStrictlyEqual, the [===] operator. *)
Definition strict_eq (a b : JSValue) : bool :=
  match a, b with
  | VUndefined, VUndefined => true
  | VNull, VNull => true
  | VBoolean x, VBoolean y => Bool.eqb x y
  | VNumber x, VNumber y => PrimFloat.eqb x y
  | VString x, VString y => String.eqb x y
  | VBigInt x, VBigInt y => Z.eqb x y
  | VSymbol x, VSymbol y => Pos.eqb x y
  | VFunction x, VFunction y => Pos.eqb x y
  | VObject x, VObject y => Pos.eqb x y
  | _, _ => false
  end.

(** [v] is [null] or [undefined]. *)
Definition is_missing (v : JSValue) : bool :=
  match v with
  | VUndefined | VNull => true
  | _ => false
  end.

(** [v] is of object type: [typeof v] is ["object"].  This includes [null]. *)
Definition is_object_type (v : JSValue) : bool :=
  String.eqb (typeof v) "object".

(** [v] is an object proper: of object type, and neither [null] nor
    [undefined]. *)
Definition is_object (v : JSValue) : bool :=
  is_object_type v && negb (is_missing v).

(** How a call ends: with a result, or with a thrown value. *)
Inductive completion (A : Type) : Type :=
| Normal (a : A)
| Throw (e : JSValue).

Arguments Normal {A} a.
Arguments Throw {A} e.

End JS.
Import JS.

(** ** The equality predicate of the first revision

    [defaultIsEqual] either decides by itself or hands the pair over to
    [fast-deep-equal].  [Cmp] keeps the two outcomes apart, so that "without
    deep inspection" is a statement about what the function does and not
    only about the boolean it returns. *)
Inductive Cmp : Type :=
| Decided (b : bool)
| Deep (a b : JSValue).

(** [defaultIsEqual], lines 20-25, guard by guard. *)
Definition defaultIsEqual_cmp (a b : JSValue) : Cmp :=
  if strict_eq a b then Decided true
  else if logical_not a || logical_not b then Decided false
  else if negb (String.eqb (typeof a) "object") || negb (String.eqb (typeof b) "object")
  then Decided false
  else Deep a b.

(** The pairs handed to the deep comparator while [c] runs. *)
Definition deep_calls (c : Cmp) : list (JSValue * JSValue) :=
  match c with
  | Decided _ => []
  | Deep a b => [(a, b)]
  end.

(** Running a comparison against [deepEqual], the default export of
    [fast-deep-equal]. *)
Definition run_cmp (deepEqual : JSValue -> JSValue -> bool) (c : Cmp) : bool :=
  match c with
  | Decided b => b
  | Deep a b => deepEqual a b
  end.

Definition defaultIsEqual (deepEqual : JSValue -> JSValue -> bool) (a b : JSValue) : bool :=
  run_cmp deepEqual (defaultIsEqual_cmp a b).

(** ** Schemas

    The part of zod the hook uses: [safeParse] reports a failed validation in
    its result and does not throw. *)
Module Zod.

Record ZodError : Type := { issues : list string }.

Inductive SafeParseReturnType : Type :=
| SafeParseSuccess (data : JSValue)
| SafeParseError (error : ZodError).

Definition success (r : SafeParseReturnType) : bool :=
  match r with
  | SafeParseSuccess _ => true
  | SafeParseError _ => false
  end.

Record ZodSchema : Type := { safeParse : JSValue -> SafeParseReturnType }.

End Zod.
Import Zod.

(** [validateWithSchema], lines 20-22 (27-29 in the first revision). *)
Definition validateWithSchema (schema : ZodSchema) (val : JSValue) : bool :=
  if strict_eq val VNull then true else success (safeParse schema val).

(** ** The store registry, [./components/store-registry]

    The hook imports [getStore] from this module and uses the fields [value],
    [listeners], [isEqual], [repairTo] and the methods [setValue] and
    [hydrate] of the store it returns.  Stores are objects: a store is known
    by its location in the heap, and two stores are the same object exactly
    when their locations are equal.  Listeners are callbacks, compared by
    reference. *)
Module StoreRegistry.

Abbreviation loc := positive.
Abbreviation listener := positive.

(** The optional [{ dbName, storeName }] pair of the hook. *)
Record Namespace : Type := { dbName : option string; storeName : option string }.

(** Modelled from the spec: the process-wide default database and object
    store names, used when the namespace omits them; their values are
    declared in the registry module. *)
Class Defaults : Type := { DEFAULT_DB_NAME : string; DEFAULT_STORE_NAME : string }.

(** (dbName, storeName, key) *)
Abbreviation StoreIdentity := (string * string * string)%type.

(** Modelled from the spec: the identity of a store, a composite of the
    namespace's database name, its object store name and the key; two
    identities are equal iff all three components are. *)
Definition identityOf {D : Defaults} (ns : Namespace) (key : string) : StoreIdentity :=
  (default DEFAULT_DB_NAME (dbName ns), default DEFAULT_STORE_NAME (storeName ns), key).

Inductive HydrationState : Type := NotStarted | InFlight | Done.

(** Modelled from the spec: the [Store<T>] record of section 3.  [value] is
    [undefined] while unresolved.  [identity] is what the store passes to the
    backing adapter and [written] is the "has been explicitly written" flag
    of section 5. *)
Record Store : Type := {
  identity : StoreIdentity;
  value : JSValue;
  listeners : gset listener;
  isValid : JSValue -> bool;
  isEqual : JSValue -> JSValue -> bool;
  repairTo : JSValue;
  hydrationState : HydrationState;
  written : bool
}.

(** What the backing adapter's [get] settles with. *)
Inductive ReadOutcome : Type :=
| Found (v : JSValue)
| NotFound
| Rejected.

(** What a store does to the outside, and the calls of its [setValue]. *)
Inductive Effect : Type :=
| AdapterGet (s : loc) (id : StoreIdentity)
| AdapterPut (s : loc) (id : StoreIdentity) (v : JSValue)
| Notified (s : loc) (ls : gset listener)
| SetValueCalled (s : loc) (v : JSValue).

(** The registry map, the stores it points to, and the effects so far,
    latest first. *)
Record World : Type := {
  registry : gmap StoreIdentity loc;
  heap : gmap loc Store;
  effects : list Effect
}.

Definition emit (e : Effect) (w : World) : World :=
  {| registry := registry w; heap := heap w; effects := e :: effects w |}.

Definition store_at (s : loc) (st : Store) (w : World) : World :=
  {| registry := registry w; heap := <[s := st]> (heap w); effects := effects w |}.

Definition with_value (v : JSValue) (st : Store) : Store :=
  {| identity := identity st; value := v; listeners := listeners st;
     isValid := isValid st; isEqual := isEqual st; repairTo := repairTo st;
     hydrationState := hydrationState st; written := written st |}.

Definition with_listeners (ls : gset listener) (st : Store) : Store :=
  {| identity := identity st; value := value st; listeners := ls;
     isValid := isValid st; isEqual := isEqual st; repairTo := repairTo st;
     hydrationState := hydrationState st; written := written st |}.

Definition with_hydrationState (h : HydrationState) (st : Store) : Store :=
  {| identity := identity st; value := value st; listeners := listeners st;
     isValid := isValid st; isEqual := isEqual st; repairTo := repairTo st;
     hydrationState := h; written := written st |}.

Definition with_written (b : bool) (st : Store) : Store :=
  {| identity := identity st; value := value st; listeners := listeners st;
     isValid := isValid st; isEqual := isEqual st; repairTo := repairTo st;
     hydrationState := hydrationState st; written := b |}.

(** Modelled from the spec: [getStore] of section 4.1.  An absent identity
    gets a new store ([NotStarted], unresolved, [repairTo] the initial value,
    the given predicates pinned), which is inserted and returned; a present
    one gets the existing store, and the arguments are dropped. *)
Definition getStore {D : Defaults} (key : string) (initialValue : JSValue)
    (isValid : JSValue -> bool) (isEqual : JSValue -> JSValue -> bool)
    (ns : Namespace) (w : World) : loc * World :=
  let id := identityOf ns key in
  match registry w !! id with
  | Some s => (s, w)
  | None =>
      let s := fresh (dom (heap w)) in
      let st := {| identity := id; value := VUndefined; listeners := ∅;
                   isValid := isValid; isEqual := isEqual; repairTo := initialValue;
                   hydrationState := NotStarted; written := false |} in
      (s, {| registry := <[id := s]> (registry w);
             heap := <[s := st]> (heap w);
             effects := effects w |})
  end.

(** Modelled from the spec: the synchronous part of [hydrate()], section
    4.2.  Anything but [NotStarted] returns at once; otherwise the store goes
    [InFlight] and asks the backing adapter for its record. *)
Definition hydrate (s : loc) (w : World) : World :=
  match heap w !! s with
  | None => w
  | Some st =>
      match hydrationState st with
      | NotStarted =>
          emit (AdapterGet s (identity st)) (store_at s (with_hydrationState InFlight st) w)
      | _ => w
      end
  end.

(** Modelled from the spec: what a settled read makes of the store's value,
    and whether the record is written back (sections 4.2 and 7). *)
Definition hydrated (st : Store) (o : ReadOutcome) : JSValue * bool :=
  match o with
  | Found v => if isValid st v then (v, false) else (repairTo st, true)
  | NotFound => (repairTo st, true)
  | Rejected => (repairTo st, false)
  end.

(** Modelled from the spec: the continuation of [hydrate()] once the read
    has settled.  The store is [Done] and its listeners are notified once in
    every branch; the result is dropped when a write came first (section 5).
    A read settles only for a store that is [InFlight]. *)
Definition settle (s : loc) (o : ReadOutcome) (w : World) : World :=
  match heap w !! s with
  | None => w
  | Some st =>
      match hydrationState st with
      | InFlight =>
          let '(v, heal) := hydrated st o in
          let st' := with_hydrationState Done (if written st then st else with_value v st) in
          let w' := store_at s st' w in
          let w' := if heal && negb (written st)
                    then emit (AdapterPut s (identity st) (repairTo st)) w' else w' in
          emit (Notified s (listeners st)) w'
      | _ => w
      end
  end.

(** Modelled from the spec: the store's own [setValue], section 4.3.  It
    takes the value as given: the value is set in memory, the listeners are
    notified, and the write to the backing adapter is issued, in this
    order. *)
Definition setValue (s : loc) (v : JSValue) (w : World) : World :=
  let w := emit (SetValueCalled s v) w in
  match heap w !! s with
  | None => w
  | Some st =>
      let w := store_at s (with_written true (with_value v st)) w in
      let w := emit (Notified s (listeners st)) w in
      emit (AdapterPut s (identity st) v) w
  end.

(** [store.listeners.add(cb)] and [store.listeners.delete(cb)]: [listeners]
    is a set of callbacks. *)
Definition listeners_add (s : loc) (cb : listener) (w : World) : World :=
  match heap w !! s with
  | None => w
  | Some st => store_at s (with_listeners ({[cb]} ∪ listeners st) st) w
  end.

Definition listeners_delete (s : loc) (cb : listener) (w : World) : World :=
  match heap w !! s with
  | None => w
  | Some st => store_at s (with_listeners (listeners st ∖ {[cb]}) st) w
  end.

(** The listener set of the store at [s]; empty when there is none. *)
Definition listeners_of (s : loc) (w : World) : gset listener :=
  from_option listeners ∅ (heap w !! s).

Definition empty_world : World := {| registry := ∅; heap := ∅; effects := [] |}.

End StoreRegistry.

(** ** The hook, [src/app/use-local-db.ts] *)
Module UseLocalDb.

Import StoreRegistry.

Record T_UseLocalDb : Type := {
  key : string;
  schema : ZodSchema;
  initialValue : option JSValue;
  dbName : option string;
  storeName : option string
}.

(** What the callbacks of one render close over: the memoised [store], the
    [value] that [useSyncExternalStore] returned to this render, and the
    [isValid] built from this instance's schema. *)
Record Render : Type := {
  store : loc;
  value : JSValue;
  isValid : JSValue -> bool
}.

(** [getSnapshot], [() => store.value]. *)
Definition getSnapshot (s : loc) (w : World) : JSValue :=
  from_option StoreRegistry.value VUndefined (heap w !! s).

(** The body of [useLocalDb] on the first render of an instance, up to the
    snapshot.  [isEqual] is what the revision at hand passes on to
    [getStore]: [isDeepEqual], or [defaultIsEqual] in the first revision.
    An omitted [initialValue] is [null]. *)
Definition useLocalDb {D : Defaults} (isEqual : JSValue -> JSValue -> bool)
    (props : T_UseLocalDb) (w : World) : Render * World :=
  let initialRef := default VNull (initialValue props) in
  let ns := {| StoreRegistry.dbName := dbName props;
               StoreRegistry.storeName := storeName props |} in
  let isValid := fun val => validateWithSchema (schema props) val in
  let '(store, w) := getStore (key props) initialRef isValid isEqual ns w in
  ({| store := store; value := getSnapshot store w; isValid := isValid |}, w).

(** [subscribe], lines 33-39 (the first argument of [useSyncExternalStore]
    in the first revision): adds the listener and returns the closure
    [() => store.listeners.delete(listener)], here the pair it captures. *)
Definition subscribe (r : Render) (listener : StoreRegistry.listener) (w : World)
    : (loc * StoreRegistry.listener) * World :=
  ((store r, listener), listeners_add (store r) listener w).

(** Calling the closure that [subscribe] returned. *)
Definition unsubscribe (u : loc * listener) (w : World) : World :=
  listeners_delete (fst u) (snd u) w.

(** [setValue], lines 45-53 (49-57 in the first revision).  A store
    reference always points to a store in the source; reading a property of
    anything else is a TypeError. *)
Definition setValue (r : Render) (next : JSValue) (w : World) : completion World :=
  match heap w !! store r with
  | None => Throw (VString "TypeError")
  | Some st =>
      if StoreRegistry.isEqual st (value r) next then Normal w
      else
        let safe := if isValid r next then next else StoreRegistry.repairTo st in
        Normal (StoreRegistry.setValue (store r) safe w)
  end.

(** The effect of lines 55-57: [store.hydrate()]. *)
Definition effect (r : Render) (w : World) : World :=
  StoreRegistry.hydrate (store r) w.

(** A component mounting: the hook renders, then React subscribes its
    listener and runs the effect. *)
Definition mount {D : Defaults} (isEqual : JSValue -> JSValue -> bool)
    (props : T_UseLocalDb) (listener : StoreRegistry.listener) (w : World)
    : Render * World :=
  let '(r, w) := useLocalDb isEqual props w in
  (r, effect r (snd (subscribe r listener w))).

(** Several components mounting one after the other in the same turn, each
    with its props and the listener React subscribes for it. *)
Fixpoint mount_all {D : Defaults} (isEqual : JSValue -> JSValue -> bool)
    (cs : list (T_UseLocalDb * StoreRegistry.listener)) (w : World)
    : list Render * World :=
  match cs with
  | [] => ([], w)
  | c :: cs' =>
      let '(r, w) := mount isEqual (fst c) (snd c) w in
      let '(rs, w) := mount_all isEqual cs' w in
      (r :: rs, w)
  end.

(** The identity a component's props name. *)
Definition identityOfProps {D : Defaults} (props : T_UseLocalDb) : StoreIdentity :=
  identityOf {| StoreRegistry.dbName := dbName props;
                StoreRegistry.storeName := storeName props |} (key props).

(** The write path as section 3 of the specification words it, with both
    predicates read from the store; compared with [setValue] below. *)
Definition setValue_pinned (r : Render) (next : JSValue) (w : World) : completion World :=
  match heap w !! store r with
  | None => Throw (VString "TypeError")
  | Some st =>
      if StoreRegistry.isEqual st (value r) next then Normal w
      else
        let safe := if StoreRegistry.isValid st next then next
                    else StoreRegistry.repairTo st in
        Normal (StoreRegistry.setValue (store r) safe w)
  end.

End UseLocalDb.

(** ** The event loop

    Everything that happens to the registry and its stores happens in one of
    these steps, one after the other: the calls the hook makes, and the
    settling of a read. *)
Module EventLoop.

Import StoreRegistry.

Inductive Event : Type :=
| CallGetStore (key : string) (initialValue : JSValue) (isValid : JSValue -> bool)
    (isEqual : JSValue -> JSValue -> bool) (ns : Namespace)
| CallHydrate (s : loc)
| ReadSettles (s : loc) (o : ReadOutcome)
| CallSetValue (s : loc) (v : JSValue)
| ListenersAdd (s : loc) (cb : listener)
| ListenersDelete (s : loc) (cb : listener).

Definition step {D : Defaults} (w : World) (e : Event) : World :=
  match e with
  | CallGetStore key initialValue isValid isEqual ns =>
      snd (getStore key initialValue isValid isEqual ns w)
  | CallHydrate s => hydrate s w
  | ReadSettles s o => settle s o w
  | CallSetValue s v => StoreRegistry.setValue s v w
  | ListenersAdd s cb => listeners_add s cb w
  | ListenersDelete s cb => listeners_delete s cb w
  end.

Definition run {D : Defaults} (es : list Event) (w : World) : World :=
  foldl step w es.

Definition is_hydrate_of (s : loc) (e : Event) : bool :=
  match e with
  | CallHydrate s' => Pos.eqb s s'
  | _ => false
  end.

(** How often [hydrate()] is called on the store at [s] in [es]. *)
Definition hydrate_calls (s : loc) (es : list Event) : nat :=
  length (List.filter (is_hydrate_of s) es).

Definition is_read_by (s : loc) (e : Effect) : bool :=
  match e with
  | AdapterGet s' _ => Pos.eqb s s'
  | _ => false
  end.

(** The reads the store at [s] has asked the backing adapter for. *)
Definition reads_by (s : loc) (w : World) : nat :=
  length (List.filter (is_read_by s) (effects w)).

(** The reads the store at [s] may still ask for: one as long as it has not
    started to hydrate (or is yet to be created), none afterwards. *)
Definition reads_left (s : loc) (w : World) : nat :=
  match heap w !! s with
  | Some st =>
      match hydrationState st with
      | NotStarted => 1
      | _ => 0
      end
  | None => 1
  end.

(** The calls of [store.setValue] so far: the store and the value it was
    given, latest first. *)
Definition forwarded (w : World) : list (loc * JSValue) :=
  omap (fun e => match e with
                 | SetValueCalled s v => Some (s, v)
                 | _ => None
                 end) (effects w).

(** The values sent to the backing adapter's [put], with the store that
    sent them, latest first. *)
Definition persisted (w : World) : list (loc * JSValue) :=
  omap (fun e => match e with
                 | AdapterPut s _ v => Some (s, v)
                 | _ => None
                 end) (effects w).

(** The notifications so far: the store and the listeners it called, latest
    first. *)
Definition notifications (w : World) : list (loc * gset listener) :=
  omap (fun e => match e with
                 | Notified s ls => Some (s, ls)
                 | _ => None
                 end) (effects w).

End EventLoop.

(** ** Concrete schemas, predicates and worlds *)
Module Scenario.

Import StoreRegistry UseLocalDb EventLoop.

Definition defaults : Defaults :=
  {| DEFAULT_DB_NAME := "local-db"; DEFAULT_STORE_NAME := "kv" |}.

(** [z.any()] *)
Definition anySchema : ZodSchema := {| safeParse := fun v => SafeParseSuccess v |}.

(** [z.number()]: a number that is not [NaN]. *)
Definition numberSchema : ZodSchema :=
  {| safeParse := fun v =>
       match v with
       | VNumber n =>
           if PrimFloat.is_nan n
           then SafeParseError {| issues := ["Expected number, received nan"] |}
           else SafeParseSuccess v
       | _ => SafeParseError {| issues := ["Expected number"] |}
       end |}.

(** The deep comparator on a heap whose objects are all the empty record. *)
Definition deepEqual_empty (a b : JSValue) : bool := true.

Definition isEqual : JSValue -> JSValue -> bool := defaultIsEqual deepEqual_empty.

(** Two components bound to the key ["counter"], the first with a schema
    that takes anything, the second with one that takes numbers only. *)
Definition first_props : T_UseLocalDb :=
  {| key := "counter"; schema := anySchema; initialValue := Some (VNumber 0);
     dbName := None; storeName := None |}.

Definition later_props : T_UseLocalDb :=
  {| key := "counter"; schema := numberSchema; initialValue := None;
     dbName := Some "local-db"; storeName := None |}.

(** The world after the first component has rendered. *)
Definition world1 : World := snd (@useLocalDb defaults isEqual first_props empty_world).

Definition first_render : Render := fst (@useLocalDb defaults isEqual first_props empty_world).

(** The second component's render, in that world. *)
Definition later_render : Render := fst (@useLocalDb defaults isEqual later_props world1).

(** The store the first render created, as it sits in [world1]. *)
Definition store1 : Store :=
  {| identity := ("local-db", "kv", "counter");
     StoreRegistry.value := VUndefined;
     listeners := ∅;
     StoreRegistry.isValid := fun val => validateWithSchema anySchema val;
     StoreRegistry.isEqual := isEqual;
     repairTo := VNumber 0;
     hydrationState := NotStarted;
     written := false |}.

(** The world after 5 has been written, the store as it then is, and a
    render of the second component in that world: its snapshot is 5. *)
Definition world_written : World := StoreRegistry.setValue 1 (VNumber 5) world1.

Definition store_written : Store := with_written true (with_value (VNumber 5) store1).

Definition render_written : Render :=
  fst (@useLocalDb defaults isEqual later_props world_written).

(** The two components, each with the listener React subscribes for it. *)
Definition components : list (T_UseLocalDb * listener) :=
  [(first_props, 7%positive); (later_props, 8%positive)].

(** That store with the listener [7] attached. *)
Definition world_listening : World := listeners_add (store first_render) 7%positive world1.

End Scenario.

(** ** Later renders, and more concrete inputs *)
Module Later.

Import StoreRegistry UseLocalDb.

(** [v] is the number [NaN]. *)
Definition is_NaN (v : JSValue) : bool :=
  match v with
  | VNumber n => PrimFloat.is_nan n
  | _ => false
  end.

(** A later render of the same instance with the same props.  The
    dependencies of [useMemo] and [useCallback] are unchanged, so [store] and
    [isValid] are the ones of the render before, and [value] is what
    [getSnapshot] returns now. *)
Definition rerender (r : Render) (w : World) : Render :=
  {| store := store r; value := getSnapshot (store r) w; isValid := isValid r |}.

(** The world after the second component of [Scenario] has written the
    valid 5, resp. the invalid ["x"], through its first render. *)
Definition world_valid : World := StoreRegistry.setValue 1 (VNumber 5) Scenario.world1.

Definition world_invalid : World := StoreRegistry.setValue 1 (VNumber 0) Scenario.world1.

(** A second listener on the store that [7] listens to. *)
Definition world_two : World := listeners_add 1 8%positive Scenario.world_listening.

End Later.

(** * Properties *)

Import StoreRegistry EventLoop.

Open Scope list_scope.
Set Warnings "-clear-no-such-hyp".

(** ** The equality predicate *)

Lemma is_object_VObject (v : JSValue) :
  is_object v = true <-> exists r, v = VObject r.
Proof.
  split.
  - destruct v; cbn; try discriminate. eauto.
  - intros [r ->]. reflexivity.
Qed.

(** A falsy value is never an object: the guard [!a || !b] turns away the
    missing values and some primitives, and nothing else. *)
Lemma logical_not_no_object (v : JSValue) :
  logical_not v = true -> is_object v = false.
Proof. destruct v; cbn; intros H; try reflexivity; discriminate. Qed.

Lemma is_missing_logical_not (v : JSValue) :
  is_missing v = true -> logical_not v = true.
Proof. destruct v; cbn; intros H; try reflexivity; discriminate. Qed.

Lemma logical_not_object_type (v : JSValue) :
  logical_not v = true -> is_missing v = true \/ is_object_type v = false.
Proof. destruct v; cbn; auto. Qed.

(** C7. For every pair [(a, b)], [defaultIsEqual] first tests [a === b] and
    answers [true] when it holds; when it fails and either side is missing
    or is not of object type, the answer is [false] and the deep comparator
    is not consulted; what is left, two objects, goes to the deep
    comparator, and nothing else does. *)
Theorem defaultIsEqual_short_circuits (a b : JSValue) :
  defaultIsEqual_cmp a b =
    if strict_eq a b then Decided true
    else if is_missing a || is_missing b
            || negb (is_object_type a) || negb (is_object_type b)
    then Decided false
    else Deep a b.
Proof.
  unfold defaultIsEqual_cmp.
  destruct (strict_eq a b); [reflexivity|].
  fold (is_object_type a) (is_object_type b).
  destruct (logical_not a || logical_not b) eqn:Hfalsy.
  - (* a falsy side is missing, or a primitive *)
    apply orb_true_iff in Hfalsy.
    destruct Hfalsy as [H|H]; apply logical_not_object_type in H;
      destruct H as [-> | ->]; cbn; rewrite ?orb_true_r; reflexivity.
  - (* both sides truthy: neither is missing *)
    apply orb_false_iff in Hfalsy. destruct Hfalsy as [Ha Hb].
    destruct (is_missing a) eqn:Ma;
      [apply is_missing_logical_not in Ma; congruence|].
    destruct (is_missing b) eqn:Mb;
      [apply is_missing_logical_not in Mb; congruence|].
    reflexivity.
Qed.

(** The same in terms of objects proper; shared by the results below. *)
Lemma defaultIsEqual_cmp_objects (a b : JSValue) :
  defaultIsEqual_cmp a b =
    if strict_eq a b then Decided true
    else if is_object a && is_object b then Deep a b
    else Decided false.
Proof.
  unfold defaultIsEqual_cmp.
  destruct (strict_eq a b); [reflexivity|].
  destruct (logical_not a) eqn:Ha.
  { rewrite (logical_not_no_object a Ha). reflexivity. }
  destruct (logical_not b) eqn:Hb.
  { rewrite (logical_not_no_object b Hb), andb_false_r. reflexivity. }
  destruct a, b; cbn in *; try discriminate; reflexivity.
Qed.

(** C10. The deep comparator is called by [defaultIsEqual] only with two
    objects proper, never with [null], [undefined] or a primitive, and these
    are the arguments themselves; on every other pair the guards alone
    decide, whatever the deep comparator would say. *)
Theorem deepEqual_called_on_objects_only (a b : JSValue) :
  Forall (fun p => p = (a, b) /\ is_object (fst p) = true /\ is_object (snd p) = true)
         (deep_calls (defaultIsEqual_cmp a b))
  /\ (is_object a && is_object b = false ->
      exists r, defaultIsEqual_cmp a b = Decided r
                /\ forall deepEqual, defaultIsEqual deepEqual a b = r).
Proof.
  unfold defaultIsEqual. rewrite defaultIsEqual_cmp_objects. split.
  - destruct (strict_eq a b); [constructor|].
    destruct (is_object a) eqn:Ha, (is_object b) eqn:Hb; cbn; constructor; auto.
  - intros ->. destruct (strict_eq a b); eauto.
Qed.

Lemma deepEqual_called_on_objects_only_witness :
  is_object VNull && is_object (VObject 1) = false
  /\ exists r, defaultIsEqual_cmp VNull (VObject 1) = Decided r
               /\ forall deepEqual, defaultIsEqual deepEqual VNull (VObject 1) = r.
Proof.
  split; [reflexivity|].
  apply (proj2 (deepEqual_called_on_objects_only VNull (VObject 1))).
  reflexivity.
Defined.

(** ** The store's [setValue] *)

Lemma store_setValue_effects (s : loc) (v : JSValue) (w : World) (st : Store) :
  heap w !! s = Some st ->
  effects (StoreRegistry.setValue s v w)
  = AdapterPut s (identity st) v :: Notified s (listeners st)
      :: SetValueCalled s v :: effects w.
Proof. intros H. unfold StoreRegistry.setValue. cbn. rewrite H. reflexivity. Qed.

Lemma store_setValue_heap (s : loc) (v : JSValue) (w : World) (st : Store) :
  heap w !! s = Some st ->
  heap (StoreRegistry.setValue s v w)
  = <[s := with_written true (with_value v st)]> (heap w).
Proof. intros H. unfold StoreRegistry.setValue. cbn. rewrite H. reflexivity. Qed.

Lemma store_setValue_snapshot (s : loc) (v : JSValue) (w : World) (st : Store) :
  heap w !! s = Some st ->
  UseLocalDb.getSnapshot s (StoreRegistry.setValue s v w) = v.
Proof.
  intros H. unfold UseLocalDb.getSnapshot.
  rewrite (store_setValue_heap _ _ _ _ H), lookup_insert_eq. reflexivity.
Qed.

Lemma store_setValue_logs (s : loc) (v : JSValue) (w : World) (st : Store) :
  heap w !! s = Some st ->
  forwarded (StoreRegistry.setValue s v w) = (s, v) :: forwarded w
  /\ persisted (StoreRegistry.setValue s v w) = (s, v) :: persisted w
  /\ notifications (StoreRegistry.setValue s v w) = (s, listeners st) :: notifications w.
Proof.
  intros H. unfold forwarded, persisted, notifications.
  rewrite (store_setValue_effects _ _ _ _ H). auto.
Qed.

(** ** The hook's [setValue] *)

(** The three ways the hook's [setValue] ends on a live store. *)
Lemma setValue_cases (r : UseLocalDb.Render) (next : JSValue) (w : World) (st : Store) :
  heap w !! UseLocalDb.store r = Some st ->
  UseLocalDb.setValue r next w =
    Normal (if StoreRegistry.isEqual st (UseLocalDb.value r) next then w
            else if UseLocalDb.isValid r next
                 then StoreRegistry.setValue (UseLocalDb.store r) next w
                 else StoreRegistry.setValue (UseLocalDb.store r) (repairTo st) w).
Proof.
  intros H. unfold UseLocalDb.setValue. rewrite H.
  destruct (StoreRegistry.isEqual st _ next); [reflexivity|].
  destruct (UseLocalDb.isValid r next); reflexivity.
Qed.

(** C2. Whatever candidate the hook's [setValue] is given, what it hands to
    [store.setValue] (and so to the listeners) is [null], or a value that
    [isValid] accepts, or the store's pinned [repairTo]; the call returns,
    and it reaches no other store. *)
Theorem setValue_forwards_valid_or_repair
    (r : UseLocalDb.Render) (next : JSValue) (w : World) (st : Store) :
  heap w !! UseLocalDb.store r = Some st ->
  exists w' new,
    UseLocalDb.setValue r next w = Normal w'
    /\ forwarded w' = new ++ forwarded w
    /\ Forall (fun c => fst c = UseLocalDb.store r
                        /\ (snd c = VNull \/ UseLocalDb.isValid r (snd c) = true
                            \/ snd c = repairTo st)) new.
Proof.
  intros H. rewrite (setValue_cases _ _ _ _ H).
  destruct (StoreRegistry.isEqual st _ next).
  { exists w, []. auto. }
  destruct (UseLocalDb.isValid r next) eqn:Hv.
  - exists (StoreRegistry.setValue (UseLocalDb.store r) next w),
           [(UseLocalDb.store r, next)].
    destruct (store_setValue_logs (UseLocalDb.store r) next w st H) as (-> & _).
    split; [reflexivity|]. split; [reflexivity|].
    constructor; [cbn; auto | constructor].
  - exists (StoreRegistry.setValue (UseLocalDb.store r) (repairTo st) w),
           [(UseLocalDb.store r, repairTo st)].
    destruct (store_setValue_logs (UseLocalDb.store r) (repairTo st) w st H) as (-> & _).
    split; [reflexivity|]. split; [reflexivity|].
    constructor; [cbn; auto | constructor].
Qed.

(** C3. A value that [isValid] rejects, and that the equality check lets
    through, is replaced by the pinned [repairTo]: [store.setValue] is called
    once, with [repairTo]; the store's value becomes [repairTo]; [repairTo] is
    what goes to the backing adapter; and the call returns normally, the
    failed validation is not thrown. *)
Theorem setValue_invalid_repairs
    (r : UseLocalDb.Render) (v : JSValue) (w : World) (st : Store) :
  heap w !! UseLocalDb.store r = Some st ->
  StoreRegistry.isEqual st (UseLocalDb.value r) v = false ->
  UseLocalDb.isValid r v = false ->
  exists w',
    UseLocalDb.setValue r v w = Normal w'
    /\ UseLocalDb.getSnapshot (UseLocalDb.store r) w' = repairTo st
    /\ forwarded w' = (UseLocalDb.store r, repairTo st) :: forwarded w
    /\ persisted w' = (UseLocalDb.store r, repairTo st) :: persisted w
    /\ notifications w' = (UseLocalDb.store r, listeners st) :: notifications w.
Proof.
  intros H Heq Hv. rewrite (setValue_cases _ _ _ _ H), Heq, Hv.
  eexists. split; [reflexivity|].
  split; [exact (store_setValue_snapshot _ _ _ _ H)|].
  exact (store_setValue_logs _ _ _ _ H).
Qed.

(** C4. When the store's [isEqual] holds of the current value (the [value]
    of the render that owns this [setValue]) and the candidate, [setValue]
    does nothing at all: [store.setValue] is not called, nobody is notified,
    nothing is written, and registry and stores are as they were. *)
Theorem setValue_equal_is_noop
    (r : UseLocalDb.Render) (v : JSValue) (w : World) (st : Store) :
  heap w !! UseLocalDb.store r = Some st ->
  StoreRegistry.isEqual st (UseLocalDb.value r) v = true ->
  exists w',
    UseLocalDb.setValue r v w = Normal w'
    /\ w' = w
    /\ forwarded w' = forwarded w
    /\ notifications w' = notifications w
    /\ persisted w' = persisted w.
Proof.
  intros H Heq. rewrite (setValue_cases _ _ _ _ H), Heq.
  exists w. auto.
Qed.

(** The current value in C4 is the [value] the hook gave to the render whose
    [setValue] is called.  For a render that is up to date this is the
    store's own value. *)
Lemma setValue_equal_to_store_value
    (r : UseLocalDb.Render) (v : JSValue) (w : World) (st : Store) :
  heap w !! UseLocalDb.store r = Some st ->
  UseLocalDb.value r = UseLocalDb.getSnapshot (UseLocalDb.store r) w ->
  StoreRegistry.isEqual st (StoreRegistry.value st) v = true ->
  UseLocalDb.setValue r v w = Normal w.
Proof.
  intros H Hcur Heq. rewrite (setValue_cases _ _ _ _ H), Hcur.
  unfold UseLocalDb.getSnapshot. rewrite H. cbn. rewrite Heq. reflexivity.
Qed.

(** A render from before a write still compares with the value it was given:
    the render of the first component saw [undefined], 5 has been written
    since, and its [setValue 5] writes 5 again. *)
Lemma setValue_compares_with_render_value :
  UseLocalDb.value Scenario.first_render = VUndefined
  /\ UseLocalDb.getSnapshot 1 Scenario.world_written = VNumber 5
  /\ UseLocalDb.setValue Scenario.first_render (VNumber 5) Scenario.world_written
     = Normal (StoreRegistry.setValue 1 (VNumber 5) Scenario.world_written).
Proof. repeat split. Qed.

(** C6. Whatever the schema, [validateWithSchema schema null] is [true]: the
    schema is not consulted.  So [setValue null] of a hook built on that
    schema hands [null] itself to the store, never [repairTo] in its place,
    unless the equality check finds nothing to do. *)
Theorem null_is_always_valid
    (schema : ZodSchema) (s : loc) (current : JSValue) (w : World) (st : Store) :
  heap w !! s = Some st ->
  let r := {| UseLocalDb.store := s; UseLocalDb.value := current;
              UseLocalDb.isValid := fun val => validateWithSchema schema val |} in
  validateWithSchema schema VNull = true
  /\ UseLocalDb.setValue r VNull w =
       Normal (if StoreRegistry.isEqual st current VNull then w
               else StoreRegistry.setValue s VNull w).
Proof.
  intros H r. split; [reflexivity|].
  rewrite (setValue_cases r VNull w st H). reflexivity.
Qed.

(** ** The lemmas above at work on the two components of [Scenario] *)

Lemma world1_store1 :
  heap Scenario.world1 !! UseLocalDb.store Scenario.later_render = Some Scenario.store1.
Proof. reflexivity. Qed.

Lemma setValue_forwards_valid_or_repair_witness :
  heap Scenario.world1 !! UseLocalDb.store Scenario.later_render = Some Scenario.store1
  /\ exists w' new,
       UseLocalDb.setValue Scenario.later_render (VString "x") Scenario.world1 = Normal w'
       /\ forwarded w' = new ++ forwarded Scenario.world1
       /\ Forall (fun c => fst c = UseLocalDb.store Scenario.later_render
                           /\ (snd c = VNull
                               \/ UseLocalDb.isValid Scenario.later_render (snd c) = true
                               \/ snd c = repairTo Scenario.store1)) new.
Proof.
  split; [reflexivity|].
  apply (setValue_forwards_valid_or_repair
           Scenario.later_render (VString "x") Scenario.world1 Scenario.store1).
  reflexivity.
Defined.

Lemma setValue_invalid_repairs_witness :
  exists w',
    UseLocalDb.setValue Scenario.later_render (VString "x") Scenario.world1 = Normal w'
    /\ UseLocalDb.getSnapshot (UseLocalDb.store Scenario.later_render) w' = VNumber 0
    /\ forwarded w' = [(1%positive, VNumber 0)]
    /\ persisted w' = [(1%positive, VNumber 0)]
    /\ notifications w' = [(1%positive, ∅)].
Proof.
  apply (setValue_invalid_repairs
           Scenario.later_render (VString "x") Scenario.world1 Scenario.store1);
    reflexivity.
Defined.

Lemma setValue_equal_is_noop_witness :
  UseLocalDb.value Scenario.render_written = VNumber 5
  /\ exists w',
       UseLocalDb.setValue Scenario.render_written (VNumber 5) Scenario.world_written
       = Normal w'
       /\ w' = Scenario.world_written
       /\ forwarded w' = forwarded Scenario.world_written
       /\ notifications w' = notifications Scenario.world_written
       /\ persisted w' = persisted Scenario.world_written.
Proof.
  split; [reflexivity|].
  apply (setValue_equal_is_noop
           Scenario.render_written (VNumber 5) Scenario.world_written
           Scenario.store_written);
    reflexivity.
Defined.

Lemma null_is_always_valid_witness :
  validateWithSchema Scenario.numberSchema VNull = true
  /\ UseLocalDb.setValue Scenario.later_render VNull Scenario.world1
     = Normal (StoreRegistry.setValue 1 VNull Scenario.world1).
Proof.
  apply (null_is_always_valid
           Scenario.numberSchema 1 VUndefined Scenario.world1 Scenario.store1).
  reflexivity.
Defined.

(** ** Which predicates a write goes through *)

(** A hook instance for an identity that already has a store gets that
    store, and the world is left alone. *)
Lemma useLocalDb_existing {D : Defaults} (isEqual : JSValue -> JSValue -> bool)
    (props : UseLocalDb.T_UseLocalDb) (w : World) (s : loc) :
  registry w !! UseLocalDb.identityOfProps props = Some s ->
  UseLocalDb.useLocalDb isEqual props w
  = ({| UseLocalDb.store := s;
        UseLocalDb.value := UseLocalDb.getSnapshot s w;
        UseLocalDb.isValid := fun val => validateWithSchema (UseLocalDb.schema props) val |},
     w).
Proof.
  intros H. unfold UseLocalDb.useLocalDb, getStore.
  unfold UseLocalDb.identityOfProps in H. rewrite H. reflexivity.
Qed.

(** C5, as the code has it.  A hook instance that finds a store for its
    identity writes through the store's pinned [isEqual] and falls back on
    the store's pinned [repairTo], whatever [isEqual] and [initialValue] it
    supplied itself; the validation it applies is [validateWithSchema] over
    its own schema. *)
Theorem later_instance_write_path {D : Defaults}
    (isEqual : JSValue -> JSValue -> bool) (props : UseLocalDb.T_UseLocalDb)
    (w : World) (s : loc) (st : Store) (next : JSValue) :
  registry w !! UseLocalDb.identityOfProps props = Some s ->
  heap w !! s = Some st ->
  let r := fst (UseLocalDb.useLocalDb isEqual props w) in
  snd (UseLocalDb.useLocalDb isEqual props w) = w
  /\ UseLocalDb.store r = s
  /\ UseLocalDb.setValue r next w =
       Normal (if StoreRegistry.isEqual st (UseLocalDb.value r) next then w
               else StoreRegistry.setValue s
                      (if validateWithSchema (UseLocalDb.schema props) next
                       then next else repairTo st) w).
Proof.
  intros Hreg Hst. rewrite (useLocalDb_existing isEqual props w s Hreg). cbn.
  split; [reflexivity|]. split; [reflexivity|].
  unfold UseLocalDb.setValue. cbn. rewrite Hst.
  destruct (StoreRegistry.isEqual st _ next); [reflexivity|].
  destruct (validateWithSchema _ next); reflexivity.
Qed.

Lemma later_instance_write_path_witness :
  let r := fst (@UseLocalDb.useLocalDb Scenario.defaults (fun _ _ => true)
                  Scenario.later_props Scenario.world1) in
  UseLocalDb.store r = 1%positive
  /\ UseLocalDb.setValue r (VString "x") Scenario.world1
     = Normal (StoreRegistry.setValue 1 (VNumber 0) Scenario.world1).
Proof.
  apply (@later_instance_write_path Scenario.defaults (fun _ _ => true)
           Scenario.later_props Scenario.world1 1 Scenario.store1 (VString "x"));
    reflexivity.
Defined.

(** C5, as the specification states it, fails.  The store for ["counter"] was created
    by a component whose schema takes anything; a later component for the
    same key brings a schema for numbers and writes ["x"].  The pinned
    predicate accepts ["x"], and the write path with the pinned predicates
    would store it; the hook applies the later schema and stores [repairTo],
    the number 0. *)
Lemma later_schema_is_applied :
  UseLocalDb.store Scenario.later_render = UseLocalDb.store Scenario.first_render
  /\ StoreRegistry.isValid Scenario.store1 (VString "x") = true
  /\ (exists w', UseLocalDb.setValue_pinned Scenario.later_render (VString "x")
                   Scenario.world1 = Normal w'
                 /\ forwarded w' = [(1%positive, VString "x")])
  /\ (exists w', UseLocalDb.setValue Scenario.later_render (VString "x")
                   Scenario.world1 = Normal w'
                 /\ forwarded w' = [(1%positive, VNumber 0)])
  /\ UseLocalDb.setValue Scenario.later_render (VString "x") Scenario.world1
     <> UseLocalDb.setValue_pinned Scenario.later_render (VString "x") Scenario.world1.
Proof.
  split; [reflexivity|]. split; [reflexivity|].
  split; [eexists; split; reflexivity|].
  split; [eexists; split; reflexivity|].
  intros H.
  apply (f_equal (fun c => match c with
                           | Normal w' => forwarded w'
                           | Throw _ => []
                           end)) in H.
  vm_compute in H. discriminate H.
Qed.

(** ** Subscribing *)

Lemma listeners_add_of (s : loc) (cb : listener) (w : World) (st : Store) :
  heap w !! s = Some st ->
  listeners_of s (listeners_add s cb w) = {[cb]} ∪ listeners st.
Proof.
  intros H. unfold listeners_of, listeners_add. rewrite H. cbn.
  rewrite lookup_insert_eq. reflexivity.
Qed.

Lemma listeners_delete_of (s : loc) (cb : listener) (w : World) (st : Store) :
  heap w !! s = Some st ->
  listeners_of s (listeners_delete s cb w) = listeners st ∖ {[cb]}.
Proof.
  intros H. unfold listeners_of, listeners_delete. rewrite H. cbn.
  rewrite lookup_insert_eq. reflexivity.
Qed.

Lemma with_listeners_same (st : Store) : with_listeners (listeners st) st = st.
Proof. destruct st; reflexivity. Qed.

(** Adding a new listener and deleting it again gives back the very same
    world. *)
Lemma listeners_add_delete (s : loc) (cb : listener) (w : World) (st : Store) :
  heap w !! s = Some st ->
  cb ∉ listeners st ->
  listeners_delete s cb (listeners_add s cb w) = w.
Proof.
  intros H Hnew. unfold listeners_delete, listeners_add. rewrite H. cbn.
  rewrite lookup_insert_eq. unfold store_at. cbn.
  rewrite insert_insert_eq.
  replace (with_listeners _ (with_listeners _ st)) with st.
  - rewrite (insert_id _ _ _ H). destruct w; reflexivity.
  - unfold with_listeners at 1. cbn.
    replace (({[cb]} ∪ listeners st) ∖ {[cb]}) with (listeners st) by set_solver.
    symmetry. apply with_listeners_same.
Qed.

(** C9, as the code has it.  [subscribe cb] puts [cb] into the store's
    listener set; the closure it returns takes [cb] out of the set and nothing
    else.  After both, the set is the one before the [subscribe] without
    [cb]: the same set, and indeed the same world, when [cb] was not
    subscribed before. *)
Theorem subscribe_then_unsubscribe
    (r : UseLocalDb.Render) (cb : listener) (w : World) (st : Store) :
  heap w !! UseLocalDb.store r = Some st ->
  let s := UseLocalDb.store r in
  let u := fst (UseLocalDb.subscribe r cb w) in
  let w1 := snd (UseLocalDb.subscribe r cb w) in
  let w2 := UseLocalDb.unsubscribe u w1 in
  listeners_of s w1 = {[cb]} ∪ listeners st
  /\ cb ∈ listeners_of s w1
  /\ listeners_of s w2 = listeners_of s w1 ∖ {[cb]}
  /\ listeners_of s w2 = listeners st ∖ {[cb]}
  /\ (cb ∉ listeners st -> listeners_of s w2 = listeners st /\ w2 = w).
Proof.
  intros H s u w1 w2. subst s u w1 w2. cbn.
  unfold UseLocalDb.unsubscribe. cbn.
  assert (H1 : listeners_of (UseLocalDb.store r)
                 (listeners_add (UseLocalDb.store r) cb w) = {[cb]} ∪ listeners st)
    by exact (listeners_add_of _ cb w st H).
  assert (Hlive : heap (listeners_add (UseLocalDb.store r) cb w) !! UseLocalDb.store r
                  = Some (with_listeners ({[cb]} ∪ listeners st) st)).
  { unfold listeners_add. rewrite H. cbn. apply lookup_insert_eq. }
  pose proof (listeners_delete_of _ cb _ _ Hlive) as H2. cbn in H2.
  rewrite H1, H2.
  split; [reflexivity|]. split; [set_solver|]. split; [reflexivity|].
  split; [set_solver|].
  intros Hnew. split; [set_solver|].
  exact (listeners_add_delete _ cb w st H Hnew).
Qed.


Lemma subscribe_then_unsubscribe_witness :
  let u := fst (UseLocalDb.subscribe Scenario.first_render 7%positive Scenario.world1) in
  let w1 := snd (UseLocalDb.subscribe Scenario.first_render 7%positive Scenario.world1) in
  let w2 := UseLocalDb.unsubscribe u w1 in
  (7%positive ∉ listeners Scenario.store1)
  /\ (7%positive ∈ listeners_of 1 w1)
  /\ listeners_of 1 w2 = listeners Scenario.store1
  /\ w2 = Scenario.world1.
Proof.
  intros u w1 w2.
  assert (Hnew : 7%positive ∉ listeners Scenario.store1) by (cbn; set_solver).
  destruct (subscribe_then_unsubscribe Scenario.first_render 7%positive
              Scenario.world1 Scenario.store1 eq_refl)
    as (_ & Hin & _ & _ & Hback).
  destruct (Hback Hnew) as [Hset Hworld].
  split; [exact Hnew|]. split; [exact Hin|]. split; [exact Hset | exact Hworld].
Defined.

(** C9, as the specification states it, fails when the listener is already in the set:
    a set holds it once, so the second [subscribe] adds nothing and the
    closure it returns takes the listener out.  Listener [7] is subscribed
    before, and gone after. *)
Lemma resubscribed_listener_is_dropped :
  let u := fst (UseLocalDb.subscribe Scenario.first_render 7%positive
                  Scenario.world_listening) in
  let w1 := snd (UseLocalDb.subscribe Scenario.first_render 7%positive
                   Scenario.world_listening) in
  listeners_of 1 Scenario.world_listening = {[7%positive]}
  /\ listeners_of 1 (UseLocalDb.unsubscribe u w1) = ∅
  /\ listeners_of 1 (UseLocalDb.unsubscribe u w1)
     <> listeners_of 1 Scenario.world_listening.
Proof.
  cbn zeta.
  assert (H0 : listeners_of 1 Scenario.world_listening = {[7%positive]}).
  { unfold Scenario.world_listening.
    change (UseLocalDb.store Scenario.first_render) with 1%positive.
    rewrite (listeners_add_of 1 7 Scenario.world1 Scenario.store1 eq_refl).
    cbn. set_solver. }
  assert (Hlive : heap Scenario.world_listening !! 1%positive
                  = Some (with_listeners ({[7%positive]} ∪ ∅) Scenario.store1))
    by reflexivity.
  assert (Hlive1 : heap (listeners_add 1 7%positive Scenario.world_listening) !! 1%positive
                  = Some (with_listeners ({[7%positive]} ∪ ({[7%positive]} ∪ ∅))
                            (with_listeners ({[7%positive]} ∪ ∅) Scenario.store1)))
    by reflexivity.
  assert (H2 : listeners_of 1
                 (UseLocalDb.unsubscribe
                    (fst (UseLocalDb.subscribe Scenario.first_render 7%positive
                            Scenario.world_listening))
                    (snd (UseLocalDb.subscribe Scenario.first_render 7%positive
                            Scenario.world_listening))) = ∅).
  { unfold UseLocalDb.unsubscribe, UseLocalDb.subscribe. cbn [fst snd].
    change (UseLocalDb.store Scenario.first_render) with 1%positive.
    rewrite (listeners_delete_of 1 7 _ _ Hlive1). cbn. set_solver. }
  split; [exact H0|]. split; [exact H2|].
  rewrite H0, H2. set_solver.
Qed.

(** ** The registry under the event loop *)

Section Registry.

Context {D : Defaults}.

Lemma getStore_present (key : string) (initialValue : JSValue)
    (isValid : JSValue -> bool) (isEqual : JSValue -> JSValue -> bool)
    (ns : Namespace) (w : World) (s : loc) :
  registry w !! identityOf ns key = Some s ->
  getStore key initialValue isValid isEqual ns w = (s, w).
Proof. intros H. unfold getStore. rewrite H. reflexivity. Qed.

(** After [getStore], the registry maps the identity to the store that was
    returned. *)
Lemma getStore_registered (key : string) (initialValue : JSValue)
    (isValid : JSValue -> bool) (isEqual : JSValue -> JSValue -> bool)
    (ns : Namespace) (w : World) :
  registry (snd (getStore key initialValue isValid isEqual ns w)) !! identityOf ns key
  = Some (fst (getStore key initialValue isValid isEqual ns w)).
Proof.
  unfold getStore.
  destruct (registry w !! identityOf ns key) eqn:H; cbn; [exact H|].
  apply lookup_insert_eq.
Qed.

(** The location of a new store is not in use. *)
Lemma fresh_loc_unused (w : World) : heap w !! fresh (dom (heap w)) = None.
Proof. apply not_elem_of_dom, is_fresh. Qed.

(** No step takes an identity out of the registry or maps it elsewhere. *)
Lemma step_registry (w : World) (e : Event) (id : StoreIdentity) (s : loc) :
  registry w !! id = Some s -> registry (step w e) !! id = Some s.
Proof.
  intros H. destruct e as [key iv v q ns|s'|s' o|s' v|s' cb|s' cb]; cbn.
  - unfold getStore.
    destruct (registry w !! identityOf ns key) eqn:Hid; cbn; [exact H|].
    rewrite lookup_insert_ne; [exact H|]. congruence.
  - unfold hydrate. destruct (heap w !! s') as [st|]; [|exact H].
    destruct (hydrationState st); exact H.
  - unfold settle. destruct (heap w !! s') as [st|]; [|exact H].
    destruct (hydrationState st); try exact H.
    destruct (hydrated st o) as [v heal].
    destruct (heal && negb (written st)); exact H.
  - unfold StoreRegistry.setValue. cbn. destruct (heap w !! s'); exact H.
  - unfold listeners_add. destruct (heap w !! s'); exact H.
  - unfold listeners_delete. destruct (heap w !! s'); exact H.
Qed.

Lemma run_registry (es : list Event) (w : World) (id : StoreIdentity) (s : loc) :
  registry w !! id = Some s -> registry (run es w) !! id = Some s.
Proof.
  revert w. induction es as [|e es IH]; intros w H; [exact H|].
  cbn. apply IH, step_registry, H.
Qed.

(** What a step does to the reads of the store at [s]: nothing, unless the
    step is the [hydrate()] that starts the store's hydration, which asks
    for one read and uses up the store's only one. *)
Lemma step_reads (w : World) (e : Event) (s : loc) :
  (reads_left s (step w e) = reads_left s w /\ reads_by s (step w e) = reads_by s w)
  \/ (e = CallHydrate s /\ reads_left s w = 1 /\ reads_left s (step w e) = 0
      /\ reads_by s (step w e) = S (reads_by s w)).
Proof.
  unfold reads_left, reads_by.
  destruct e as [key iv v q ns|s'|s' o|s' v|s' cb|s' cb]; cbn.
  - left. unfold getStore.
    destruct (registry w !! identityOf ns key); cbn; [auto|].
    split; [|reflexivity].
    destruct (decide (fresh (dom (heap w)) = s)) as [<-|Hne].
    + rewrite lookup_insert_eq, fresh_loc_unused. reflexivity.
    + rewrite lookup_insert_ne by exact Hne. reflexivity.
  - unfold hydrate. destruct (heap w !! s') as [st|] eqn:Hs'; [|auto].
    destruct (hydrationState st) eqn:Hh; [|auto|auto]. cbn.
    destruct (decide (s' = s)) as [->|Hne].
    + right. rewrite Hs', Hh, lookup_insert_eq, Pos.eqb_refl. cbn. auto.
    + left. rewrite lookup_insert_ne by exact Hne.
      replace (Pos.eqb s s') with false
        by (symmetry; apply Pos.eqb_neq; congruence).
      auto.
  - left. unfold settle. destruct (heap w !! s') as [st|] eqn:Hs'; [|auto].
    destruct (hydrationState st) eqn:Hh; [auto| |auto].
    destruct (hydrated st o) as [v heal].
    assert (Hheap : forall st',
               hydrationState st' = Done ->
               match <[s' := st']> (heap w) !! s with
               | Some st0 => match hydrationState st0 with NotStarted => 1 | _ => 0 end
               | None => 1
               end
               = match heap w !! s with
                 | Some st0 => match hydrationState st0 with NotStarted => 1 | _ => 0 end
                 | None => 1
                 end).
    { intros st' Hd. destruct (decide (s' = s)) as [->|Hne].
      - rewrite lookup_insert_eq, Hs', Hd, Hh. reflexivity.
      - rewrite lookup_insert_ne by exact Hne. reflexivity. }
    destruct (heal && negb (written st)); cbn; (split; [|reflexivity]);
      apply Hheap; destruct (written st); reflexivity.
  - left. unfold StoreRegistry.setValue. cbn.
    destruct (heap w !! s') as [st|] eqn:Hs'; cbn; [|auto].
    split; [|reflexivity].
    destruct (decide (s' = s)) as [->|Hne].
    + rewrite lookup_insert_eq, Hs'. reflexivity.
    + rewrite lookup_insert_ne by exact Hne. reflexivity.
  - left. unfold listeners_add.
    destruct (heap w !! s') as [st|] eqn:Hs'; cbn; [|auto].
    split; [|reflexivity].
    destruct (decide (s' = s)) as [->|Hne].
    + rewrite lookup_insert_eq, Hs'. reflexivity.
    + rewrite lookup_insert_ne by exact Hne. reflexivity.
  - left. unfold listeners_delete.
    destruct (heap w !! s') as [st|] eqn:Hs'; cbn; [|auto].
    split; [|reflexivity].
    destruct (decide (s' = s)) as [->|Hne].
    + rewrite lookup_insert_eq, Hs'. reflexivity.
    + rewrite lookup_insert_ne by exact Hne. reflexivity.
Qed.

(** Reads asked for plus reads left is constant along a run. *)
Lemma run_reads (es : list Event) (w : World) (s : loc) :
  reads_by s (run es w) + reads_left s (run es w) = reads_by s w + reads_left s w
  /\ reads_left s (run es w) <= reads_left s w.
Proof.
  revert w. induction es as [|e es IH]; intros w; [cbn; lia|].
  cbn. destruct (IH (step w e)) as [IH1 IH2]. fold (run es (step w e)) in *.
  destruct (step_reads w e s) as [[H1 H2]|(_ & H1 & H2 & H3)]; lia.
Qed.

Lemma reads_left_le_1 (s : loc) (w : World) : reads_left s w <= 1.
Proof.
  unfold reads_left. destruct (heap w !! s) as [st|]; [|lia].
  destruct (hydrationState st); lia.
Qed.

(** A store stays where it is. *)
Lemma step_live (w : World) (e : Event) (s : loc) :
  is_Some (heap w !! s) -> is_Some (heap (step w e) !! s).
Proof.
  intros H. destruct e as [key iv v q ns|s'|s' o|s' v|s' cb|s' cb]; cbn.
  - unfold getStore. destruct (registry w !! identityOf ns key); cbn; [exact H|].
    rewrite lookup_insert_is_Some. destruct (decide (fresh (dom (heap w)) = s)); auto.
  - unfold hydrate. destruct (heap w !! s') as [st|]; [|exact H].
    destruct (hydrationState st); try exact H. cbn.
    rewrite lookup_insert_is_Some. destruct (decide (s' = s)); auto.
  - unfold settle. destruct (heap w !! s') as [st|]; [|exact H].
    destruct (hydrationState st); try exact H.
    destruct (hydrated st o) as [v heal].
    destruct (heal && negb (written st)); cbn;
      rewrite lookup_insert_is_Some; destruct (decide (s' = s)); auto.
  - unfold StoreRegistry.setValue. cbn. destruct (heap w !! s'); [|exact H]. cbn.
    rewrite lookup_insert_is_Some. destruct (decide (s' = s)); auto.
  - unfold listeners_add. destruct (heap w !! s'); [|exact H]. cbn.
    rewrite lookup_insert_is_Some. destruct (decide (s' = s)); auto.
  - unfold listeners_delete. destruct (heap w !! s'); [|exact H]. cbn.
    rewrite lookup_insert_is_Some. destruct (decide (s' = s)); auto.
Qed.

(** Once [hydrate()] has been called on a store, it has no read left. *)
Lemma hydrate_started (s : loc) (w : World) :
  is_Some (heap w !! s) -> reads_left s (hydrate s w) = 0.
Proof.
  intros [st H]. unfold reads_left, hydrate. rewrite H.
  destruct (hydrationState st) eqn:Hh; cbn.
  - rewrite lookup_insert_eq. reflexivity.
  - rewrite H, Hh. reflexivity.
  - rewrite H, Hh. reflexivity.
Qed.

Lemma run_hydrated (es : list Event) (w : World) (s : loc) :
  is_Some (heap w !! s) ->
  1 <= hydrate_calls s es ->
  reads_left s (run es w) = 0.
Proof.
  revert w. induction es as [|e es IH]; intros w Hlive Hk; [cbn in Hk; lia|].
  cbn. fold (run es (step w e)).
  unfold hydrate_calls in Hk. cbn in Hk.
  destruct (is_hydrate_of s e) eqn:He.
  - destruct e; try discriminate. cbn in He. apply Pos.eqb_eq in He. subst s0.
    cbn. pose proof (hydrate_started s w Hlive) as H0.
    destruct (run_reads es (hydrate s w) s) as [_ Hle]. lia.
  - apply IH; [apply step_live, Hlive | exact Hk].
Qed.

(** *** Hydration *)

Lemma hydrate_not_NotStarted (s : loc) (st : Store) (w : World) :
  heap w !! s = Some st -> hydrationState st <> NotStarted -> hydrate s w = w.
Proof.
  intros H Hh. unfold hydrate. rewrite H.
  destruct (hydrationState st); [congruence|reflexivity|reflexivity].
Qed.

Lemma hydrate_hydrate (s : loc) (w : World) : hydrate s (hydrate s w) = hydrate s w.
Proof.
  destruct (heap w !! s) as [st|] eqn:H.
  - destruct (hydrationState st) eqn:Hh.
    + assert (Hw : hydrate s w
                   = emit (AdapterGet s (identity st))
                       (store_at s (with_hydrationState InFlight st) w))
        by (unfold hydrate; rewrite H, Hh; reflexivity).
      rewrite Hw. unfold hydrate. cbn. rewrite lookup_insert_eq. reflexivity.
    + rewrite !(hydrate_not_NotStarted s st w H) by congruence. reflexivity.
    + rewrite !(hydrate_not_NotStarted s st w H) by congruence. reflexivity.
  - assert (Hw : hydrate s w = w) by (unfold hydrate; rewrite H; reflexivity).
    rewrite !Hw. reflexivity.
Qed.

(** C8. [hydrate()] is idempotent.  On a store that is [InFlight] or [Done]
    a call changes nothing, and however the event loop goes on, the store
    asks for no further read.  On a store that has not started, [k >= 1]
    calls, interleaved with whatever else happens, make the store ask the
    backing adapter for exactly one read. *)
Theorem hydrate_is_idempotent (s : loc) (st : Store) (w : World) (es : list Event) :
  heap w !! s = Some st ->
  hydrate s (hydrate s w) = hydrate s w
  /\ (hydrationState st <> NotStarted ->
      hydrate s w = w /\ reads_by s (run es w) = reads_by s w)
  /\ (hydrationState st = NotStarted ->
      1 <= hydrate_calls s es ->
      reads_by s (run es w) = reads_by s w + 1).
Proof.
  intros H. split; [apply hydrate_hydrate|].
  destruct (run_reads es w s) as [Hsum Hle].
  assert (Hleft : reads_left s w
                  = match hydrationState st with NotStarted => 1 | _ => 0 end).
  { unfold reads_left. rewrite H. reflexivity. }
  split.
  - intros Hh. split; [exact (hydrate_not_NotStarted s st w H Hh)|].
    destruct (hydrationState st); [congruence|lia|lia].
  - intros Hh Hk. rewrite Hh in Hleft.
    assert (H0 : reads_left s (run es w) = 0)
      by (apply run_hydrated; [rewrite H; eauto | exact Hk]).
    lia.
Qed.

(** *** One store per identity *)

Lemma settle_not_InFlight (s : loc) (o : ReadOutcome) (w : World) :
  (forall st, heap w !! s = Some st -> hydrationState st <> InFlight) ->
  settle s o w = w.
Proof.
  intros H. unfold settle. destruct (heap w !! s) as [st|]; [|reflexivity].
  specialize (H st eq_refl). destruct (hydrationState st); congruence.
Qed.

Lemma run_settles_not_InFlight (s : loc) (os : list ReadOutcome) (w : World) :
  (forall st, heap w !! s = Some st -> hydrationState st <> InFlight) ->
  run (map (ReadSettles s) os) w = w.
Proof.
  intros H. induction os as [|o os IH]; [reflexivity|].
  cbn. rewrite (settle_not_InFlight s o w H). exact IH.
Qed.

(** However often and with whatever outcome reads settle for a store, the
    store writes at most one record back. *)
Lemma settles_put_once (s : loc) (os : list ReadOutcome) (w : World) :
  length (persisted (run (map (ReadSettles s) os) w)) <= length (persisted w) + 1.
Proof.
  revert w. induction os as [|o os IH]; intros w; [cbn; lia|].
  cbn. fold (run (map (ReadSettles s) os) (settle s o w)).
  destruct (heap w !! s) as [st|] eqn:H.
  2:{ rewrite (settle_not_InFlight s o w); [apply IH|]. intros st. congruence. }
  destruct (hydrationState st) eqn:Hh.
  1,3: rewrite (settle_not_InFlight s o w); [apply IH|];
       intros st' Hst'; rewrite H in Hst'; injection Hst' as <-; congruence.
  rewrite run_settles_not_InFlight.
  - unfold settle. rewrite H, Hh. destruct (hydrated st o) as [v heal].
    unfold persisted. destruct (heal && negb (written st)); cbn; lia.
  - intros st'. unfold settle. rewrite H, Hh. destruct (hydrated st o) as [v heal].
    destruct (heal && negb (written st)); cbn; rewrite lookup_insert_eq;
      intros [= <-]; cbn; congruence.
Qed.

(** A mount is three steps of the event loop: [getStore], the subscription,
    and [hydrate()], all on the store that [getStore] returned. *)
Lemma mount_steps (isEqual : JSValue -> JSValue -> bool)
    (props : UseLocalDb.T_UseLocalDb) (cb : listener) (w : World) :
  let ns := {| dbName := UseLocalDb.dbName props;
               storeName := UseLocalDb.storeName props |} in
  let iv := default VNull (UseLocalDb.initialValue props) in
  let v := fun val => validateWithSchema (UseLocalDb.schema props) val in
  let s := fst (getStore (UseLocalDb.key props) iv v isEqual ns w) in
  UseLocalDb.store (fst (UseLocalDb.mount isEqual props cb w)) = s
  /\ snd (UseLocalDb.mount isEqual props cb w)
     = run [CallGetStore (UseLocalDb.key props) iv v isEqual ns;
            ListenersAdd s cb; CallHydrate s] w.
Proof.
  cbn zeta. unfold UseLocalDb.mount, UseLocalDb.useLocalDb, run.
  cbn [foldl step].
  destruct (getStore _ _ _ _ _ w) as [s w1]. cbn. auto.
Qed.

Lemma run_app (es1 es2 : list Event) (w : World) :
  run (es1 ++ es2) w = run es2 (run es1 w).
Proof. unfold run. apply foldl_app. Qed.

Lemma mount_run (isEqual : JSValue -> JSValue -> bool)
    (props : UseLocalDb.T_UseLocalDb) (cb : listener) (w : World) :
  exists es, snd (UseLocalDb.mount isEqual props cb w) = run es w.
Proof. eexists. apply mount_steps. Qed.

Lemma mount_registered (isEqual : JSValue -> JSValue -> bool)
    (props : UseLocalDb.T_UseLocalDb) (cb : listener) (w : World) :
  registry (snd (UseLocalDb.mount isEqual props cb w)) !! UseLocalDb.identityOfProps props
  = Some (UseLocalDb.store (fst (UseLocalDb.mount isEqual props cb w))).
Proof.
  destruct (mount_steps isEqual props cb w) as [-> ->].
  change (run (?e :: ?es) w) with (run es (step w e)).
  apply run_registry. cbn. apply getStore_registered.
Qed.

Lemma mount_persisted (isEqual : JSValue -> JSValue -> bool)
    (props : UseLocalDb.T_UseLocalDb) (cb : listener) (w : World) :
  persisted (snd (UseLocalDb.mount isEqual props cb w)) = persisted w.
Proof.
  unfold UseLocalDb.mount, UseLocalDb.useLocalDb, getStore, persisted.
  destruct (registry w !! _) as [s|]; cbn;
    unfold UseLocalDb.effect, hydrate, listeners_add; cbn.
  - destruct (heap w !! s) as [st|] eqn:H; cbn.
    + rewrite lookup_insert_eq. cbn. destruct (hydrationState st); reflexivity.
    + rewrite H. reflexivity.
  - rewrite !lookup_insert_eq. cbn. rewrite lookup_insert_eq. reflexivity.
Qed.

(** All the components that mount in a turn for one identity end up on the
    store the registry holds for it; together they make any store ask for at
    most one read, and write nothing. *)
Lemma mount_all_one_store (isEqual : JSValue -> JSValue -> bool)
    (cs : list (UseLocalDb.T_UseLocalDb * listener)) (w : World) (id : StoreIdentity) :
  Forall (fun c => UseLocalDb.identityOfProps (fst c) = id) cs ->
  Forall (fun r => registry (snd (UseLocalDb.mount_all isEqual cs w)) !! id
                   = Some (UseLocalDb.store r))
         (fst (UseLocalDb.mount_all isEqual cs w))
  /\ (exists es, snd (UseLocalDb.mount_all isEqual cs w) = run es w)
  /\ persisted (snd (UseLocalDb.mount_all isEqual cs w)) = persisted w.
Proof.
  intros Hid. revert w. induction Hid as [|c cs Hc Hcs IH]; intros w.
  { cbn. split; [constructor|]. split; [exists []; reflexivity | reflexivity]. }
  cbn [UseLocalDb.mount_all].
  pose proof (mount_registered isEqual (fst c) (snd c) w) as Hreg.
  pose proof (mount_persisted isEqual (fst c) (snd c) w) as Hput.
  destruct (mount_run isEqual (fst c) (snd c) w) as [es1 Hrun].
  destruct (UseLocalDb.mount isEqual (fst c) (snd c) w) as [r w1].
  cbn [fst snd] in *.
  destruct (IH w1) as (IH1 & [es IH2] & IH3).
  destruct (UseLocalDb.mount_all isEqual cs w1) as [rs w2].
  cbn [fst snd] in *.
  split; [|split].
  - constructor; [|exact IH1].
    rewrite IH2. apply run_registry. rewrite <- Hc. exact Hreg.
  - exists (es1 ++ es). rewrite IH2, Hrun. symmetry. apply run_app.
  - congruence.
Qed.

(** C1. [getStore] gives one store per identity.  Two calls for the same
    identity return the same store object, whatever else the two callers
    pass and whatever happens in between, and the second call leaves registry
    and stores as they are.  Any number of components that mount for the
    identity in the same turn are bound to that one store; together they
    start at most one read, they write nothing, and when the read settles at
    most one record is written. *)
Theorem getStore_one_store_per_identity
    (id : StoreIdentity)
    (key1 key2 : string) (ns1 ns2 : Namespace) (iv1 iv2 : JSValue)
    (isValid1 isValid2 : JSValue -> bool) (isEqual1 isEqual2 : JSValue -> JSValue -> bool)
    (es : list Event) (isEqual : JSValue -> JSValue -> bool)
    (cs : list (UseLocalDb.T_UseLocalDb * listener)) (w : World) :
  identityOf ns1 key1 = id ->
  identityOf ns2 key2 = id ->
  Forall (fun c => UseLocalDb.identityOfProps (fst c) = id) cs ->
  let first := getStore key1 iv1 isValid1 isEqual1 ns1 w in
  let second := getStore key2 iv2 isValid2 isEqual2 ns2 (run es (snd first)) in
  let mounted := UseLocalDb.mount_all isEqual cs w in
  (fst second = fst first /\ snd second = run es (snd first))
  /\ Forall (fun r => registry (snd mounted) !! id = Some (UseLocalDb.store r))
            (fst mounted)
  /\ (forall r1 r2, r1 ∈ fst mounted -> r2 ∈ fst mounted ->
                    UseLocalDb.store r1 = UseLocalDb.store r2)
  /\ (forall s, reads_by s (snd mounted) <= reads_by s w + 1)
  /\ persisted (snd mounted) = persisted w
  /\ (forall s os, length (persisted (run (map (ReadSettles s) os) (snd mounted)))
                   <= length (persisted w) + 1).
Proof.
  intros H1 H2 Hcs first second mounted. subst first second mounted.
  split.
  { pose proof (getStore_registered key1 iv1 isValid1 isEqual1 ns1 w) as Hreg.
    apply (run_registry es) in Hreg. rewrite H1, <- H2 in Hreg.
    rewrite (getStore_present _ _ _ _ _ _ _ Hreg). auto. }
  destruct (mount_all_one_store isEqual cs w id Hcs) as (Hsame & [es' Hrun] & Hput).
  split; [exact Hsame|]. split; [|split; [|split]].
  - intros r1 r2 Hr1 Hr2. rewrite Forall_forall in Hsame.
    pose proof (Hsame r1 Hr1) as E1. pose proof (Hsame r2 Hr2) as E2. congruence.
  - intros s. rewrite Hrun.
    destruct (run_reads es' w s) as [Hsum _].
    pose proof (reads_left_le_1 s w). lia.
  - exact Hput.
  - intros s os. rewrite <- Hput. apply settles_put_once.
Qed.

End Registry.

(** ** The registry results at work on the two components of [Scenario] *)

Lemma hydrate_is_idempotent_witness :
  let es := [CallHydrate 1; CallHydrate 1; ReadSettles 1 NotFound; CallHydrate 1] in
  hydrate_calls 1 es = 3
  /\ reads_by 1 (@run Scenario.defaults es Scenario.world1) = 1.
Proof.
  intros es. split; [reflexivity|].
  destruct (@hydrate_is_idempotent Scenario.defaults 1 Scenario.store1
              Scenario.world1 es eq_refl) as (_ & _ & H).
  apply H; [reflexivity | cbn; lia].
Defined.

Lemma getStore_one_store_per_identity_witness :
  let mounted := @UseLocalDb.mount_all Scenario.defaults Scenario.isEqual
                   Scenario.components empty_world in
  (forall r1 r2, r1 ∈ fst mounted -> r2 ∈ fst mounted ->
                 UseLocalDb.store r1 = UseLocalDb.store r2)
  /\ (forall s, reads_by s (snd mounted) <= 1)
  /\ persisted (snd mounted) = [].
Proof.
  pose proof (@getStore_one_store_per_identity Scenario.defaults
                ("local-db", "kv", "counter")
                "counter" "counter"
                {| dbName := None; storeName := None |}
                {| dbName := Some "local-db"; storeName := Some "kv" |}
                (VNumber 0) VNull (fun _ => true) (fun _ => false)
                Scenario.isEqual (fun _ _ => false) []
                Scenario.isEqual Scenario.components empty_world
                eq_refl eq_refl) as H.
  cbn zeta in H.
  destruct H as (_ & _ & Hsame & Hreads & Hput & _).
  { repeat constructor. }
  intros mounted. split; [exact Hsame|]. split; [exact Hreads | exact Hput].
Defined.

(** * Further properties of the code *)

Import Later.

(** ** [defaultIsEqual] as a relation *)

Lemma SFeqb_sym (x y : spec_float) : SFeqb x y = SFeqb y x.
Proof.
  unfold SFeqb, SFcompare.
  destruct x as [sx|sx| |sx mx ex], y as [sy|sy| |sy my ey];
    try destruct sx; try destruct sy; try reflexivity;
    rewrite (Z.compare_antisym ex ey);
    change (Pos.compare_cont Eq my mx) with (Pos.compare my mx);
    change (Pos.compare_cont Eq mx my) with (Pos.compare mx my);
    rewrite (Pos.compare_antisym mx my);
    destruct (ex ?= ey)%Z; cbn; try reflexivity;
    destruct (mx ?= my)%positive; reflexivity.
Qed.

Lemma float_eqb_sym (x y : float) : PrimFloat.eqb x y = PrimFloat.eqb y x.
Proof. rewrite !FloatAxioms.eqb_spec. apply SFeqb_sym. Qed.

Lemma strict_eq_sym (a b : JSValue) : strict_eq a b = strict_eq b a.
Proof.
  destruct a, b; cbn; try reflexivity.
  - destruct b0, b; reflexivity.
  - apply float_eqb_sym.
  - apply String.eqb_sym.
  - apply Z.eqb_sym.
  - apply Pos.eqb_sym.
  - apply Pos.eqb_sym.
  - apply Pos.eqb_sym.
Qed.

(** [===] holds of a value and itself, except for [NaN]. *)
Lemma strict_eq_refl (a : JSValue) : strict_eq a a = negb (is_NaN a).
Proof.
  destruct a; cbn; try reflexivity.
  - destruct b; reflexivity.
  - unfold PrimFloat.is_nan. rewrite negb_involutive. reflexivity.
  - apply String.eqb_refl.
  - apply Z.eqb_refl.
  - apply Pos.eqb_refl.
  - apply Pos.eqb_refl.
  - apply Pos.eqb_refl.
Qed.

(** X1. When one side is not an object proper (a primitive, a function,
    [null] or [undefined]), [defaultIsEqual] is [===], whatever the deep
    comparator would answer. *)
Theorem defaultIsEqual_primitive
    (deepEqual : JSValue -> JSValue -> bool) (a b : JSValue) :
  is_object a && is_object b = false ->
  defaultIsEqual deepEqual a b = strict_eq a b.
Proof.
  intros H. unfold defaultIsEqual. rewrite defaultIsEqual_cmp_objects, H.
  destruct (strict_eq a b); reflexivity.
Qed.

Lemma defaultIsEqual_primitive_witness :
  defaultIsEqual (fun _ _ => true) VNull VUndefined = false
  /\ defaultIsEqual (fun _ _ => true) (VNumber 0) (VNumber (-0)) = true
  /\ defaultIsEqual (fun _ _ => true) (VObject 1) (VString "a") = false.
Proof.
  split; [|split].
  - apply (defaultIsEqual_primitive (fun _ _ => true) VNull VUndefined). reflexivity.
  - apply (defaultIsEqual_primitive (fun _ _ => true) (VNumber 0) (VNumber (-0))).
    reflexivity.
  - apply (defaultIsEqual_primitive (fun _ _ => true) (VObject 1) (VString "a")).
    reflexivity.
Defined.

(** X2. [defaultIsEqual] holds of every value and itself, except for [NaN],
    and the deep comparator has no say in it: the same reference is equal
    to itself even under a deep comparator that answers [false]. *)
Theorem defaultIsEqual_refl (deepEqual : JSValue -> JSValue -> bool) (a : JSValue) :
  defaultIsEqual deepEqual a a = negb (is_NaN a).
Proof.
  unfold defaultIsEqual. rewrite defaultIsEqual_cmp_objects, strict_eq_refl.
  destruct a; try reflexivity.
  cbn. destruct (PrimFloat.is_nan n); reflexivity.
Qed.

(** X3. On two objects, [defaultIsEqual] gives the deep comparator's verdict,
    provided the deep comparator finds a reference equal to itself (as
    [fast-deep-equal] does). *)
Theorem defaultIsEqual_objects
    (deepEqual : JSValue -> JSValue -> bool) (a b : JSValue) :
  (forall x, is_object x = true -> deepEqual x x = true) ->
  is_object a = true -> is_object b = true ->
  defaultIsEqual deepEqual a b = deepEqual a b.
Proof.
  intros Hrefl Ha Hb. unfold defaultIsEqual.
  rewrite defaultIsEqual_cmp_objects, Ha, Hb.
  destruct (strict_eq a b) eqn:E; [|reflexivity].
  apply is_object_VObject in Ha, Hb. destruct Ha as [x ->], Hb as [y ->].
  cbn in E. apply Pos.eqb_eq in E. subst y.
  cbn. symmetry. apply Hrefl. reflexivity.
Qed.

Lemma defaultIsEqual_objects_witness :
  defaultIsEqual Scenario.deepEqual_empty (VObject 1) (VObject 2)
  = Scenario.deepEqual_empty (VObject 1) (VObject 2).
Proof.
  apply (defaultIsEqual_objects Scenario.deepEqual_empty (VObject 1) (VObject 2));
    reflexivity.
Defined.

(** X4. [defaultIsEqual] is symmetric whenever the deep comparator is. *)
Theorem defaultIsEqual_sym (deepEqual : JSValue -> JSValue -> bool) (a b : JSValue) :
  (forall x y, deepEqual x y = deepEqual y x) ->
  defaultIsEqual deepEqual a b = defaultIsEqual deepEqual b a.
Proof.
  intros Hsym. unfold defaultIsEqual.
  rewrite !defaultIsEqual_cmp_objects, (strict_eq_sym b a), (andb_comm (is_object b)).
  destruct (strict_eq a b); [reflexivity|].
  destruct (is_object a && is_object b); [apply Hsym | reflexivity].
Qed.

Lemma defaultIsEqual_sym_witness :
  defaultIsEqual Scenario.deepEqual_empty (VObject 1) (VNumber 1)
  = defaultIsEqual Scenario.deepEqual_empty (VNumber 1) (VObject 1).
Proof.
  apply (defaultIsEqual_sym Scenario.deepEqual_empty (VObject 1) (VNumber 1)).
  reflexivity.
Defined.

(** ** [validateWithSchema] *)

Lemma strict_eq_null (v : JSValue) : strict_eq v VNull = true <-> v = VNull.
Proof. destruct v; cbn; split; intros H; try discriminate; reflexivity. Qed.

(** X5. [validateWithSchema] accepts exactly [null] and the values on which
    the schema's [safeParse] succeeds; [undefined] gets no free pass. *)
Theorem validateWithSchema_iff (schema : ZodSchema) (val : JSValue) :
  validateWithSchema schema val = true
  <-> val = VNull \/ success (safeParse schema val) = true.
Proof.
  unfold validateWithSchema.
  destruct (strict_eq val VNull) eqn:E.
  - apply strict_eq_null in E. tauto.
  - split; [tauto|]. intros [->|H]; [discriminate E | exact H].
Qed.

(** ** More on the hook's [setValue] *)

(** What the store's [setValue] leaves alone. *)
Lemma store_setValue_frame (s : loc) (v : JSValue) (w : World) (st : Store) :
  heap w !! s = Some st ->
  let w' := StoreRegistry.setValue s v w in
  registry w' = registry w
  /\ (forall s', reads_by s' w' = reads_by s' w)
  /\ (forall s', listeners_of s' w' = listeners_of s' w)
  /\ (forall s', s' <> s -> heap w' !! s' = heap w !! s')
  /\ heap w' !! s = Some (with_written true (with_value v st)).
Proof.
  intros H w'. subst w'.
  split; [unfold StoreRegistry.setValue; cbn; rewrite H; reflexivity|].
  split.
  { intros s'. unfold reads_by. rewrite (store_setValue_effects s v w st H). reflexivity. }
  split.
  { intros s'. unfold listeners_of. rewrite (store_setValue_heap s v w st H).
    destruct (decide (s = s')) as [<-|Hne].
    - rewrite lookup_insert_eq, H. reflexivity.
    - rewrite lookup_insert_ne by exact Hne. reflexivity. }
  split.
  { intros s' Hne. rewrite (store_setValue_heap s v w st H).
    rewrite lookup_insert_ne by congruence. reflexivity. }
  rewrite (store_setValue_heap s v w st H). apply lookup_insert_eq.
Qed.

(** X6. A value that [isValid] accepts and that differs from the render's
    value is written through as it is: [store.setValue] is called once, with
    the value itself; the snapshot becomes that value, the listeners are
    notified, and the value goes to the backing adapter. *)
Theorem setValue_valid_writes_through
    (r : UseLocalDb.Render) (v : JSValue) (w : World) (st : Store) :
  heap w !! UseLocalDb.store r = Some st ->
  StoreRegistry.isEqual st (UseLocalDb.value r) v = false ->
  UseLocalDb.isValid r v = true ->
  exists w',
    UseLocalDb.setValue r v w = Normal w'
    /\ UseLocalDb.getSnapshot (UseLocalDb.store r) w' = v
    /\ forwarded w' = (UseLocalDb.store r, v) :: forwarded w
    /\ persisted w' = (UseLocalDb.store r, v) :: persisted w
    /\ notifications w' = (UseLocalDb.store r, listeners st) :: notifications w.
Proof.
  intros H Heq Hv. rewrite (setValue_cases _ _ _ _ H), Heq, Hv.
  eexists. split; [reflexivity|].
  split; [exact (store_setValue_snapshot _ _ _ _ H)|].
  exact (store_setValue_logs _ _ _ _ H).
Qed.

Lemma setValue_valid_writes_through_witness :
  exists w',
    UseLocalDb.setValue Scenario.later_render (VNumber 5) Scenario.world1 = Normal w'
    /\ UseLocalDb.getSnapshot 1 w' = VNumber 5
    /\ forwarded w' = [(1%positive, VNumber 5)]
    /\ persisted w' = [(1%positive, VNumber 5)]
    /\ notifications w' = [(1%positive, ∅)].
Proof.
  apply (setValue_valid_writes_through
           Scenario.later_render (VNumber 5) Scenario.world1 Scenario.store1);
    reflexivity.
Defined.

(** X7. The hook's [setValue] touches one store at most once, and only its
    value: it calls [store.setValue] at most once; the registry, every other
    store, every listener set and the reads asked of the backing adapter are
    as before; and the store keeps its pinned [isEqual], [isValid] and
    [repairTo] and its hydration state. *)
Theorem setValue_frame
    (r : UseLocalDb.Render) (next : JSValue) (w : World) (st : Store) :
  heap w !! UseLocalDb.store r = Some st ->
  exists w' st',
    UseLocalDb.setValue r next w = Normal w'
    /\ length (forwarded w') <= length (forwarded w) + 1
    /\ registry w' = registry w
    /\ (forall s, reads_by s w' = reads_by s w)
    /\ (forall s, listeners_of s w' = listeners_of s w)
    /\ (forall s, s <> UseLocalDb.store r -> heap w' !! s = heap w !! s)
    /\ heap w' !! UseLocalDb.store r = Some st'
    /\ StoreRegistry.isEqual st' = StoreRegistry.isEqual st
    /\ StoreRegistry.isValid st' = StoreRegistry.isValid st
    /\ repairTo st' = repairTo st
    /\ hydrationState st' = hydrationState st.
Proof.
  intros H. rewrite (setValue_cases _ _ _ _ H).
  destruct (StoreRegistry.isEqual st _ next).
  { exists w, st. repeat split; auto; lia. }
  set (safe := if UseLocalDb.isValid r next then next else repairTo st).
  replace (if UseLocalDb.isValid r next
           then StoreRegistry.setValue (UseLocalDb.store r) next w
           else StoreRegistry.setValue (UseLocalDb.store r) (repairTo st) w)
    with (StoreRegistry.setValue (UseLocalDb.store r) safe w)
    by (unfold safe; destruct (UseLocalDb.isValid r next); reflexivity).
  destruct (store_setValue_frame _ safe w st H) as (Hreg & Hreads & Hls & Hother & Hself).
  destruct (store_setValue_logs _ safe w st H) as (Hfw & _).
  exists (StoreRegistry.setValue (UseLocalDb.store r) safe w),
         (with_written true (with_value safe st)).
  split; [reflexivity|]. split; [rewrite Hfw; cbn; lia|].
  repeat split; auto.
Qed.

Lemma setValue_frame_witness :
  exists w' st',
    UseLocalDb.setValue Scenario.later_render (VString "x") Scenario.world1 = Normal w'
    /\ length (forwarded w') <= length (forwarded Scenario.world1) + 1
    /\ registry w' = registry Scenario.world1
    /\ (forall s, reads_by s w' = reads_by s Scenario.world1)
    /\ (forall s, listeners_of s w' = listeners_of s Scenario.world1)
    /\ (forall s, s <> UseLocalDb.store Scenario.later_render ->
                  heap w' !! s = heap Scenario.world1 !! s)
    /\ heap w' !! UseLocalDb.store Scenario.later_render = Some st'
    /\ StoreRegistry.isEqual st' = StoreRegistry.isEqual Scenario.store1
    /\ StoreRegistry.isValid st' = StoreRegistry.isValid Scenario.store1
    /\ repairTo st' = repairTo Scenario.store1
    /\ hydrationState st' = hydrationState Scenario.store1.
Proof.
  apply (setValue_frame Scenario.later_render (VString "x") Scenario.world1
           Scenario.store1).
  reflexivity.
Defined.

(** X8. The equality check is made against the value of the render that
    owns the [setValue], not against the store: calling the same [setValue]
    twice with a value that differs from the render's value calls
    [store.setValue] twice, with the same value. *)
Theorem setValue_twice_from_one_render
    (r : UseLocalDb.Render) (next : JSValue) (w : World) (st : Store) :
  heap w !! UseLocalDb.store r = Some st ->
  StoreRegistry.isEqual st (UseLocalDb.value r) next = false ->
  let safe := if UseLocalDb.isValid r next then next else repairTo st in
  exists w1 w2,
    UseLocalDb.setValue r next w = Normal w1
    /\ UseLocalDb.setValue r next w1 = Normal w2
    /\ forwarded w2
       = (UseLocalDb.store r, safe) :: (UseLocalDb.store r, safe) :: forwarded w
    /\ persisted w2
       = (UseLocalDb.store r, safe) :: (UseLocalDb.store r, safe) :: persisted w.
Proof.
  intros H Heq safe.
  assert (Hstep : forall w0 st0,
             heap w0 !! UseLocalDb.store r = Some st0 ->
             StoreRegistry.isEqual st0 = StoreRegistry.isEqual st ->
             repairTo st0 = repairTo st ->
             UseLocalDb.setValue r next w0
             = Normal (StoreRegistry.setValue (UseLocalDb.store r) safe w0)).
  { intros w0 st0 H0 Hq Hr. rewrite (setValue_cases _ _ _ _ H0), Hq, Heq, Hr.
    unfold safe. destruct (UseLocalDb.isValid r next); reflexivity. }
  destruct (store_setValue_frame _ safe w st H) as (_ & _ & _ & _ & H1).
  exists (StoreRegistry.setValue (UseLocalDb.store r) safe w),
         (StoreRegistry.setValue (UseLocalDb.store r) safe
            (StoreRegistry.setValue (UseLocalDb.store r) safe w)).
  split; [exact (Hstep w st H eq_refl eq_refl)|].
  split; [exact (Hstep _ _ H1 eq_refl eq_refl)|].
  destruct (store_setValue_logs _ safe _ _ H1) as (-> & -> & _).
  destruct (store_setValue_logs _ safe _ _ H) as (-> & -> & _).
  auto.
Qed.

Lemma setValue_twice_from_one_render_witness :
  exists w1 w2,
    UseLocalDb.setValue Scenario.later_render (VNumber 5) Scenario.world1 = Normal w1
    /\ UseLocalDb.setValue Scenario.later_render (VNumber 5) w1 = Normal w2
    /\ forwarded w2 = [(1%positive, VNumber 5); (1%positive, VNumber 5)]
    /\ persisted w2 = [(1%positive, VNumber 5); (1%positive, VNumber 5)].
Proof.
  apply (setValue_twice_from_one_render
           Scenario.later_render (VNumber 5) Scenario.world1 Scenario.store1);
    reflexivity.
Defined.

(** X9. After a valid write and a re-render the same write is suppressed:
    the new render's value is the written value, and [setValue] with that
    value again does nothing, as long as the pinned [isEqual] finds the value
    equal to itself. *)
Theorem setValue_again_after_rerender
    (r : UseLocalDb.Render) (v : JSValue) (w : World) (st : Store) :
  heap w !! UseLocalDb.store r = Some st ->
  StoreRegistry.isEqual st (UseLocalDb.value r) v = false ->
  UseLocalDb.isValid r v = true ->
  StoreRegistry.isEqual st v v = true ->
  exists w1,
    UseLocalDb.setValue r v w = Normal w1
    /\ UseLocalDb.value (rerender r w1) = v
    /\ UseLocalDb.setValue (rerender r w1) v w1 = Normal w1.
Proof.
  intros H Heq Hv Hrefl. rewrite (setValue_cases _ _ _ _ H), Heq, Hv.
  destruct (store_setValue_frame _ v w st H) as (_ & _ & _ & _ & H1).
  eexists. split; [reflexivity|].
  assert (Hsnap : UseLocalDb.value
                    (rerender r (StoreRegistry.setValue (UseLocalDb.store r) v w)) = v)
    by exact (store_setValue_snapshot _ _ _ _ H).
  split; [exact Hsnap|].
  unfold UseLocalDb.setValue. change (UseLocalDb.store (rerender r _)) with (UseLocalDb.store r).
  rewrite H1, Hsnap. cbn. rewrite Hrefl. reflexivity.
Qed.

Lemma setValue_again_after_rerender_witness :
  UseLocalDb.setValue Scenario.later_render (VNumber 5) Scenario.world1 = Normal world_valid
  /\ UseLocalDb.value (rerender Scenario.later_render world_valid) = VNumber 5
  /\ UseLocalDb.setValue (rerender Scenario.later_render world_valid) (VNumber 5) world_valid
     = Normal world_valid.
Proof.
  destruct (setValue_again_after_rerender
              Scenario.later_render (VNumber 5) Scenario.world1 Scenario.store1
              eq_refl eq_refl eq_refl eq_refl) as (w1 & H1 & H2 & H3).
  assert (E : w1 = world_valid) by (injection H1 as <-; reflexivity).
  rewrite E in H2, H3. split; [reflexivity|]. split; [exact H2 | exact H3].
Defined.

(** X10. An invalid write is not suppressed the second time either, although
    it no longer changes the store: after an invalid write and a re-render
    the render's value is [repairTo], and unless [isEqual] relates [repairTo]
    to the invalid value, the same [setValue] calls [store.setValue] with
    [repairTo] again, notifies the listeners again and writes [repairTo] to
    the backing adapter again. *)
Theorem setValue_invalid_again_after_rerender
    (r : UseLocalDb.Render) (v : JSValue) (w : World) (st : Store) :
  heap w !! UseLocalDb.store r = Some st ->
  StoreRegistry.isEqual st (UseLocalDb.value r) v = false ->
  UseLocalDb.isValid r v = false ->
  StoreRegistry.isEqual st (repairTo st) v = false ->
  let s := UseLocalDb.store r in
  exists w1 w2,
    UseLocalDb.setValue r v w = Normal w1
    /\ UseLocalDb.value (rerender r w1) = repairTo st
    /\ UseLocalDb.setValue (rerender r w1) v w1 = Normal w2
    /\ UseLocalDb.getSnapshot s w2 = UseLocalDb.getSnapshot s w1
    /\ forwarded w2 = (s, repairTo st) :: (s, repairTo st) :: forwarded w
    /\ persisted w2 = (s, repairTo st) :: (s, repairTo st) :: persisted w
    /\ notifications w2 = (s, listeners st) :: (s, listeners st) :: notifications w.
Proof.
  intros H Heq Hv Hrep s. subst s.
  rewrite (setValue_cases _ _ _ _ H), Heq, Hv.
  destruct (store_setValue_frame _ (repairTo st) w st H) as (_ & _ & _ & _ & H1).
  set (w1 := StoreRegistry.setValue (UseLocalDb.store r) (repairTo st) w) in *.
  assert (Hsnap : UseLocalDb.value (rerender r w1) = repairTo st)
    by exact (store_setValue_snapshot _ _ _ _ H).
  exists w1, (StoreRegistry.setValue (UseLocalDb.store r) (repairTo st) w1).
  split; [reflexivity|]. split; [exact Hsnap|].
  split.
  { unfold UseLocalDb.setValue.
    change (UseLocalDb.store (rerender r w1)) with (UseLocalDb.store r).
    rewrite H1, Hsnap. cbn. rewrite Hrep, Hv. reflexivity. }
  split.
  { rewrite (store_setValue_snapshot _ _ _ _ H1).
    symmetry. exact (store_setValue_snapshot _ _ _ _ H). }
  destruct (store_setValue_logs _ (repairTo st) _ _ H1) as (-> & -> & ->).
  unfold w1.
  destruct (store_setValue_logs _ (repairTo st) _ _ H) as (-> & -> & ->).
  auto.
Qed.

Lemma setValue_invalid_again_after_rerender_witness :
  exists w1 w2,
    UseLocalDb.setValue Scenario.later_render (VString "x") Scenario.world1 = Normal w1
    /\ UseLocalDb.value (rerender Scenario.later_render w1) = VNumber 0
    /\ UseLocalDb.setValue (rerender Scenario.later_render w1) (VString "x") w1 = Normal w2
    /\ UseLocalDb.getSnapshot 1 w2 = UseLocalDb.getSnapshot 1 w1
    /\ forwarded w2 = [(1%positive, VNumber 0); (1%positive, VNumber 0)]
    /\ persisted w2 = [(1%positive, VNumber 0); (1%positive, VNumber 0)]
    /\ notifications w2 = [(1%positive, ∅); (1%positive, ∅)].
Proof.
  apply (setValue_invalid_again_after_rerender
           Scenario.later_render (VString "x") Scenario.world1 Scenario.store1);
    reflexivity.
Defined.

(** X11. With [defaultIsEqual] pinned, a render that is still unresolved
    (its value is [undefined]) suppresses no write: every [setValue] with a
    value other than [undefined] reaches [store.setValue]. *)
Theorem setValue_unresolved_writes
    (deepEqual : JSValue -> JSValue -> bool)
    (r : UseLocalDb.Render) (next : JSValue) (w : World) (st : Store) :
  heap w !! UseLocalDb.store r = Some st ->
  (forall a b, StoreRegistry.isEqual st a b = defaultIsEqual deepEqual a b) ->
  UseLocalDb.value r = VUndefined ->
  next <> VUndefined ->
  exists w' safe,
    UseLocalDb.setValue r next w = Normal w'
    /\ safe = (if UseLocalDb.isValid r next then next else repairTo st)
    /\ forwarded w' = (UseLocalDb.store r, safe) :: forwarded w.
Proof.
  intros H Hq Hval Hnext.
  assert (Heq : StoreRegistry.isEqual st (UseLocalDb.value r) next = false).
  { rewrite Hq, Hval. unfold defaultIsEqual. rewrite defaultIsEqual_cmp_objects.
    destruct next; cbn; congruence. }
  rewrite (setValue_cases _ _ _ _ H), Heq.
  destruct (UseLocalDb.isValid r next); eexists _, _;
    (split; [reflexivity|]); (split; [reflexivity|]);
    exact (proj1 (store_setValue_logs _ _ _ _ H)).
Qed.

Lemma setValue_unresolved_writes_witness :
  exists w' safe,
    UseLocalDb.setValue Scenario.later_render VNull Scenario.world1 = Normal w'
    /\ safe = VNull
    /\ forwarded w' = [(1%positive, safe)].
Proof.
  apply (setValue_unresolved_writes Scenario.deepEqual_empty
           Scenario.later_render VNull Scenario.world1 Scenario.store1);
    [reflexivity | reflexivity | reflexivity | discriminate].
Defined.

(** ** More on [subscribe] and the closure it returns *)

Lemma with_listeners_twice (ls1 ls2 : gset listener) (st : Store) :
  with_listeners ls1 (with_listeners ls2 st) = with_listeners ls1 st.
Proof. reflexivity. Qed.

Lemma listeners_add_twice (s : loc) (cb : listener) (w : World) :
  listeners_add s cb (listeners_add s cb w) = listeners_add s cb w.
Proof.
  destruct (heap w !! s) as [st|] eqn:H.
  - assert (E : listeners_add s cb w
                = store_at s (with_listeners ({[cb]} ∪ listeners st) st) w)
      by (unfold listeners_add; rewrite H; reflexivity).
    rewrite E. unfold listeners_add, store_at. cbn.
    rewrite lookup_insert_eq, insert_insert_eq. cbn.
    rewrite with_listeners_twice.
    replace ({[cb]} ∪ ({[cb]} ∪ listeners st)) with ({[cb]} ∪ listeners st)
      by set_solver.
    reflexivity.
  - assert (E : listeners_add s cb w = w)
      by (unfold listeners_add; rewrite H; reflexivity).
    rewrite !E. reflexivity.
Qed.

Lemma listeners_delete_twice (s : loc) (cb : listener) (w : World) :
  listeners_delete s cb (listeners_delete s cb w) = listeners_delete s cb w.
Proof.
  destruct (heap w !! s) as [st|] eqn:H.
  - assert (E : listeners_delete s cb w
                = store_at s (with_listeners (listeners st ∖ {[cb]}) st) w)
      by (unfold listeners_delete; rewrite H; reflexivity).
    rewrite E. unfold listeners_delete, store_at. cbn.
    rewrite lookup_insert_eq, insert_insert_eq. cbn.
    rewrite with_listeners_twice.
    replace (listeners st ∖ {[cb]} ∖ {[cb]}) with (listeners st ∖ {[cb]})
      by set_solver.
    reflexivity.
  - assert (E : listeners_delete s cb w = w)
      by (unfold listeners_delete; rewrite H; reflexivity).
    rewrite !E. reflexivity.
Qed.

Lemma elem_listeners_add (s s' : loc) (cb cb' : listener) (w : World) :
  cb' ∈ listeners_of s' (listeners_add s cb w)
  <-> cb' ∈ listeners_of s' w \/ (s' = s /\ cb' = cb /\ is_Some (heap w !! s)).
Proof.
  unfold listeners_of, listeners_add.
  destruct (heap w !! s) as [st|] eqn:H; cbn.
  - destruct (decide (s' = s)) as [->|Hne].
    + rewrite lookup_insert_eq, H. cbn. rewrite elem_of_union, elem_of_singleton.
      split; [intros [->|Hin]; eauto | intros [Hin|(_ & -> & _)]; auto].
    + rewrite lookup_insert_ne by congruence. split; [auto|].
      intros [Hin|(E & _)]; [exact Hin | congruence].
  - split; [auto|]. intros [Hin|(_ & _ & [x Hx])]; [exact Hin | discriminate Hx].
Qed.

Lemma elem_listeners_delete (s s' : loc) (cb cb' : listener) (w : World) :
  cb' ∈ listeners_of s' (listeners_delete s cb w)
  <-> cb' ∈ listeners_of s' w /\ ~ (s' = s /\ cb' = cb).
Proof.
  unfold listeners_of, listeners_delete.
  destruct (heap w !! s) as [st|] eqn:H; cbn.
  - destruct (decide (s' = s)) as [->|Hne].
    + rewrite lookup_insert_eq, H. cbn.
      rewrite elem_of_difference, elem_of_singleton. tauto.
    + rewrite lookup_insert_ne by congruence. tauto.
  - destruct (decide (s' = s)) as [->|Hne]; [|tauto].
    rewrite H. cbn. rewrite elem_of_empty. tauto.
Qed.

(** X12. Subscribing a listener that is subscribed already changes nothing:
    a second [subscribe] with the same listener returns the same closure and
    leaves the world as the first one left it. *)
Theorem subscribe_twice (r : UseLocalDb.Render) (cb : listener) (w : World) :
  let first := UseLocalDb.subscribe r cb w in
  let second := UseLocalDb.subscribe r cb (snd first) in
  fst second = fst first /\ snd second = snd first.
Proof.
  cbn. split; [reflexivity|]. apply listeners_add_twice.
Qed.

(** X13. [subscribe] and the closure it returns act on one listener of one
    store.  After [subscribe cb] the listeners of any store are those from
    before, and [cb] on the hook's store; after the closure has run, in
    whatever world, they are those from before without [cb] on the hook's
    store.  Other listeners and other stores are not affected. *)
Theorem subscribe_acts_on_one_listener
    (r : UseLocalDb.Render) (cb : listener) (w0 w : World)
    (s' : loc) (cb' : listener) :
  let u := fst (UseLocalDb.subscribe r cb w0) in
  (cb' ∈ listeners_of s' (snd (UseLocalDb.subscribe r cb w))
   <-> cb' ∈ listeners_of s' w
       \/ (s' = UseLocalDb.store r /\ cb' = cb /\ is_Some (heap w !! UseLocalDb.store r)))
  /\ (cb' ∈ listeners_of s' (UseLocalDb.unsubscribe u w)
      <-> cb' ∈ listeners_of s' w /\ ~ (s' = UseLocalDb.store r /\ cb' = cb)).
Proof.
  cbn. split; [apply elem_listeners_add | apply elem_listeners_delete].
Qed.

(** X14. The closure returned by [subscribe] may be called again, and at any
    time: a second call changes nothing, and after a call the listener is
    not subscribed to the hook's store. *)
Theorem unsubscribe_twice (r : UseLocalDb.Render) (cb : listener) (w0 w : World) :
  let u := fst (UseLocalDb.subscribe r cb w0) in
  UseLocalDb.unsubscribe u (UseLocalDb.unsubscribe u w) = UseLocalDb.unsubscribe u w
  /\ cb ∉ listeners_of (UseLocalDb.store r) (UseLocalDb.unsubscribe u w).
Proof.
  cbn. unfold UseLocalDb.unsubscribe. cbn.
  split; [apply listeners_delete_twice|].
  rewrite elem_listeners_delete. tauto.
Qed.


(** ** Calling the hook again *)

(** X16. However the event loop goes on after a first render, calling the
    hook again with the same props (and whatever [isEqual]) creates nothing:
    the world is unchanged, and the render has the store and the [isValid] of
    the first one and the store's current value, as [rerender] says. *)
Theorem useLocalDb_again {D : Defaults}
    (isEqual isEqual' : JSValue -> JSValue -> bool)
    (props : UseLocalDb.T_UseLocalDb) (es : list Event) (w : World) :
  let first := UseLocalDb.useLocalDb isEqual props w in
  let w' := run es (snd first) in
  UseLocalDb.useLocalDb isEqual' props w' = (rerender (fst first) w', w').
Proof.
  cbn zeta.
  pose proof (getStore_registered (UseLocalDb.key props)
                (default VNull (UseLocalDb.initialValue props))
                (fun val => validateWithSchema (UseLocalDb.schema props) val)
                isEqual
                {| dbName := UseLocalDb.dbName props;
                   storeName := UseLocalDb.storeName props |} w) as Hreg.
  destruct (UseLocalDb.useLocalDb isEqual props w) as [r1 w1] eqn:E.
  unfold UseLocalDb.useLocalDb in E.
  destruct (getStore _ _ _ isEqual _ w) as [s w0]. cbn [fst snd] in *.
  injection E as <- <-.
  apply (run_registry es) in Hreg.
  rewrite (useLocalDb_existing isEqual' props (run es w0) s Hreg).
  reflexivity.
Qed.
